(** * gpm: the go projects manager (main.go)

    A shallow embedding of [main.go] and a verification of the catalog
    ([Projects]), of the path classifier ([isGogoRepo], [parsegoRepo]) and
    of the walk that [main] starts with [filepath.Walk].

    Conventions.
    - A Go [string] is a [string] (a list of bytes); [len] is its byte
      length as a Go [int], here a [Z].
    - A Go [map[K]bool] is a [gmap K bool]; reading an absent key gives
      [false], the zero value.
    - A run-time panic (an index out of range, a method call on a nil
      interface) aborts the program: fallible functions return a [result].
    - The global [allProjects] is threaded explicitly. *)

From Stdlib Require Import ZArith Ascii DecimalString.
From stdpp Require Import gmap strings list fin_maps sorting.

Local Open Scope Z_scope.

(** ** Run-time panics *)

Inductive panic : Type :=
  | IndexOutOfRange (i n : Z)   (* index out of range [i] with length n *)
  | NilDereference.             (* method call on a nil interface value *)

Inductive result (A : Type) : Type :=
  | Ok (a : A)
  | Panic (p : panic).
Arguments Ok {A} a.
Arguments Panic {A} p.

(** [result] is the error monad of panics; [x ← r; k] is its bind. *)
Global Instance result_ret : MRet result := λ A a, Ok a.
Global Instance result_bind : MBind result := λ A B k r,
  match r with
  | Ok a => k a
  | Panic p => Panic p
  end.

(** ** Strings and slices *)

Definition len (s : string) : Z := Z.of_nat (String.length s).

(** [strings.Split(s, sep)] for a separator of one byte: the pieces of [s]
    between the separators; a string without separator is its only piece,
    so the result is never empty. *)
Fixpoint Split (s : string) (sep : ascii) : list string :=
  match s with
  | EmptyString => [EmptyString]
  | String c s' =>
      if Ascii.eqb c sep then EmptyString :: Split s' sep
      else match Split s' sep with
           | piece :: pieces => String c piece :: pieces
           | [] => [String c EmptyString]
           end
  end.

(** [filepath.Separator] on a Unix system. *)
Definition Separator : ascii := "/"%char.

(** [parts[i]] on a slice: Go checks the bounds and panics outside. *)
Definition index {A} (parts : list A) (i : Z) : result A :=
  if (i <? 0) || (Z.of_nat (length parts) <=? i)
  then Panic (IndexOutOfRange i (Z.of_nat (length parts)))
  else match parts !! Z.to_nat i with
       | Some x => Ok x
       | None => Panic (IndexOutOfRange i (Z.of_nat (length parts)))
       end.

(** ** The catalog *)

Record sourceType : Type := { sourceType_source : string }.

Definition newSource (source : string) : sourceType :=
  {| sourceType_source := source |}.

Global Instance sourceType_eq_dec : EqDecision sourceType.
Proof. solve_decision. Defined.

Global Instance sourceType_countable : Countable sourceType.
Proof.
  apply (inj_countable' sourceType_source newSource). by intros [].
Defined.

Record sourcesList : Type := {
  sourcesList_sources : gmap sourceType bool;
  sourcesList_maxLength : Z
}.

Definition newSourcesList : sourcesList :=
  {| sourcesList_sources := ∅; sourcesList_maxLength := 0 |}.

(** [m[k]] on a [map[K]bool]. *)
Definition mapget `{Countable K} (m : gmap K bool) (k : K) : bool :=
  default false (m !! k).

Definition addSource (s : sourcesList) (source : sourceType) : sourcesList :=
  let sources :=
    if negb (mapget (sourcesList_sources s) source)
    then <[source := true]> (sourcesList_sources s)
    else sourcesList_sources s in
  let maxLength :=
    if len (sourceType_source source) >? sourcesList_maxLength s
    then len (sourceType_source source)
    else sourcesList_maxLength s in
  {| sourcesList_sources := sources; sourcesList_maxLength := maxLength |}.

Record ownerType : Type := {
  ownerType_owner : string;
  ownerType_source : string
}.

Definition newOwner (owner source : string) : ownerType :=
  {| ownerType_owner := owner; ownerType_source := source |}.

Global Instance ownerType_eq_dec : EqDecision ownerType.
Proof. solve_decision. Defined.

Global Instance ownerType_countable : Countable ownerType.
Proof.
  apply (inj_countable' (λ o, (ownerType_owner o, ownerType_source o))
                        (λ p, newOwner p.1 p.2)).
  by intros [].
Defined.

Record ownersList : Type := {
  ownersList_owners : gmap ownerType bool;
  ownersList_maxLength : Z
}.

Definition newOwnersList : ownersList :=
  {| ownersList_owners := ∅; ownersList_maxLength := 0 |}.

Definition addOwner (o : ownersList) (owner : ownerType) : ownersList :=
  let owners :=
    if negb (mapget (ownersList_owners o) owner)
    then <[owner := true]> (ownersList_owners o)
    else ownersList_owners o in
  let maxLength :=
    if len (ownerType_owner owner) >? ownersList_maxLength o
    then len (ownerType_owner owner)
    else ownersList_maxLength o in
  {| ownersList_owners := owners; ownersList_maxLength := maxLength |}.

(** [goRepo] represents a go package. *)
Record goRepo : Type := {
  goRepo_source : string;
  goRepo_owner : string;
  goRepo_repo : string
}.

Global Instance goRepo_eq_dec : EqDecision goRepo.
Proof. solve_decision. Defined.

(** [Projects] stores structured data for all go packages. *)
Record Projects : Type := {
  Projects_sources : sourcesList;
  Projects_owners : ownersList;
  Projects_repos : list goRepo
}.

Definition NewProjects : Projects :=
  {| Projects_sources := newSourcesList;
     Projects_owners := newOwnersList;
     Projects_repos := [] |}.

Definition AddRepo (p : Projects) (repo : goRepo) : Projects :=
  {| Projects_repos := Projects_repos p ++ [repo];
     Projects_sources :=
       addSource (Projects_sources p) (newSource (goRepo_source repo));
     Projects_owners :=
       addOwner (Projects_owners p)
                (newOwner (goRepo_owner repo) (goRepo_source repo)) |}.

(** [Sources] and [Owners] range over the map; Go leaves the order of the
    iteration open, the embedding takes the order of [map_to_list]. *)
Definition Sources (p : Projects) : list string :=
  (λ kv, sourceType_source kv.1)
    <$> map_to_list (sourcesList_sources (Projects_sources p)).

Definition Owners (p : Projects) : list string :=
  (λ kv, ownerType_owner kv.1)
    <$> map_to_list (ownersList_owners (Projects_owners p)).

(** [parsegoRepo] acts on the global [allProjects], passed here as [p].
    The fields of the literal are evaluated in the order they are written. *)
Definition parsegoRepo (path : string) (allProjects : Projects) : result Projects :=
  let parts := Split path Separator in
  let n := Z.of_nat (length parts) in
  source ← index parts (n - 1) ;
  owner ← index parts (n - 2) ;
  repo ← index parts (n - 3) ;
  Ok (AddRepo allProjects
        {| goRepo_source := source; goRepo_owner := owner; goRepo_repo := repo |}).

(** ** The file system

    A finite tree of regular files and directories: a node is a file or
    a directory with named entries. The tree has no symbolic links and
    every node of it can be searched and read; the statements over [tree]
    speak of such a file system and of no other. The process runs with the
    root of the tree as its working directory, so a relative path is
    resolved from the root too. *)

Unset Elimination Schemes.
Inductive tree : Type :=
  | File
  | Dir (entries : list (string * tree)).
Set Elimination Schemes.

(** The errors that the resolution of a path gives in such a tree. A
    stat that fails for another reason ([EACCES], [ELOOP],
    [ENAMETOOLONG]) does not arise in it; [os.IsNotExist] is false of
    these as it is of [ENOTDIR]. *)
Inductive Errno : Type := ENOENT | ENOTDIR.

Global Instance Errno_eq_dec : EqDecision Errno.
Proof. solve_decision. Defined.

(** [os.FileInfo], of which the program reads [IsDir()] only. *)
Record FileInfo : Type := { IsDir : bool }.

Definition info_of (t : tree) : FileInfo :=
  {| IsDir := match t with Dir _ => true | File => false end |}.

Fixpoint lookup_entry (name : string) (es : list (string * tree)) : option tree :=
  match es with
  | [] => None
  | (n, t) :: es' => if decide (n = name) then Some t else lookup_entry name es'
  end.

(** The node below [t] along a list of entry names. *)
Fixpoint get_node (t : tree) (names : list string) : option tree :=
  match names with
  | [] => Some t
  | n :: names' =>
      match t with
      | Dir es => match lookup_entry n es with
                  | Some c => get_node c names'
                  | None => None
                  end
      | File => None
      end
  end.

(** Path resolution as the kernel does it, one component at a time. A
    location is the list of entry names from the root, innermost first.
    An empty component (a doubled or trailing separator) and [.] stay in
    the directory, [..] goes to the parent (the root is its own parent);
    any component looked up in a file fails with [ENOTDIR]. *)
Definition walk_component (fs : tree) (L : list string) (seg : string)
  : Errno + list string :=
  match get_node fs (rev L) with
  | Some (Dir es) =>
      if decide (seg = EmptyString ∨ seg = ".") then inr L
      else if decide (seg = "..") then inr (tail L)
      else match lookup_entry seg es with
           | Some _ => inr (seg :: L)
           | None => inl ENOENT
           end
  | Some File => inl ENOTDIR
  | None => inl ENOENT
  end.

Fixpoint namei (fs : tree) (segs : list string) (L : list string)
  : Errno + list string :=
  match segs with
  | [] => inr L
  | seg :: segs' =>
      match walk_component fs L seg with
      | inr L' => namei fs segs' L'
      | inl e => inl e
      end
  end.

Definition realpath (fs : tree) (path : string) : Errno + list string :=
  if decide (path = EmptyString) then inl ENOENT
  else namei fs (Split path "/") [].

(** [os.Stat]: the pair (fileInfo, err) of which one is nil. *)
Definition os_Stat (fs : tree) (path : string) : option FileInfo * option Errno :=
  match realpath fs path with
  | inr L => match get_node fs (rev L) with
             | Some t => (Some (info_of t), None)
             | None => (None, Some ENOENT)
             end
  | inl e => (None, Some e)
  end.

(** [os.Lstat] differs from [os.Stat] on a symbolic link only, and the
    tree has none: on a [tree] it is the same function. *)
Definition os_Lstat := os_Stat.

(** [os.IsNotExist(err)]: true for [ENOENT] only, false for nil and for
    every other error. *)
Definition os_IsNotExist (err : option Errno) : bool :=
  match err with
  | Some ENOENT => true
  | _ => false
  end.

(** *** path.Clean and path.Join

    [path.Clean] works on the bytes of the path; the embedding works on its
    components, which is what the byte loop computes: empty components and
    [.] are dropped, [..] removes the component before it when there is
    one that is not itself [..], is dropped at the root of a rooted path and
    kept otherwise. [out] is the output so far, last component first. *)

Definition rooted (path : string) : bool :=
  match path with
  | String c _ => Ascii.eqb c "/"
  | EmptyString => false
  end.

Definition backtrack (is_rooted : bool) (out : list string) : list string :=
  match out with
  | c :: out' =>
      if decide (c = "..") then (if is_rooted then out else ".." :: out)
      else out'
  | [] => if is_rooted then [] else [".."]
  end.

Fixpoint clean_segs (is_rooted : bool) (segs out : list string) : list string :=
  match segs with
  | [] => out
  | seg :: segs' =>
      if decide (seg = EmptyString ∨ seg = ".") then clean_segs is_rooted segs' out
      else if decide (seg = "..") then
        clean_segs is_rooted segs' (backtrack is_rooted out)
      else clean_segs is_rooted segs' (seg :: out)
  end.

(** [strings.Join(elems, "/")]. *)
Fixpoint Joinsep (elems : list string) : string :=
  match elems with
  | [] => EmptyString
  | [e] => e
  | e :: elems' => e +:+ "/" +:+ Joinsep elems'
  end.

Definition path_Clean (path : string) : string :=
  if decide (path = EmptyString) then "."
  else
    let out := rev (clean_segs (rooted path) (Split path "/") []) in
    if rooted path then "/" +:+ Joinsep out
    else match out with
         | [] => "."
         | _ => Joinsep out
         end.

(** [path.Join] of two elements: the non-empty ones joined by a slash, then
    cleaned; the empty string when both are empty. *)
Definition path_Join (a b : string) : string :=
  if decide (a = EmptyString) then (if decide (b = EmptyString) then EmptyString else path_Clean b)
  else if decide (b = EmptyString) then path_Clean a
  else path_Clean (a +:+ "/" +:+ b).

(** On Unix [filepath.Join] gives the same cleaned path. *)
Definition filepath_Join := path_Join.

(** [readDirNames]: the names of the entries of a directory, sorted. *)
Definition readDirNames (fs : tree) (path : string) : list string * option Errno :=
  match realpath fs path with
  | inr L => match get_node fs (rev L) with
             | Some (Dir es) => (merge_sort String.le es.*1, None)
             | Some File => ([], Some ENOTDIR)
             | None => ([], Some ENOENT)
             end
  | inl e => ([], Some e)
  end.

(** ** The path classifier *)

(** [isDir] checks whether a given path is a valid directory. *)
Definition isDir (fs : tree) (path : string) : result bool :=
  let '(fileInfo, err) := os_Stat fs path in
  if os_IsNotExist err then Ok false
  else match fileInfo with
       | Some fi => Ok (IsDir fi)
       | None => Panic NilDereference
       end.

Definition isGitRoot (fs : tree) (dir : string) : result bool :=
  isDir fs (path_Join dir ".git").

Definition isGogoRepo (fs : tree) (path : string) : result bool :=
  b ← isDir fs path;
  if b : bool then isGitRoot fs path else Ok false.

(** ** The walk *)

(** Go's [error] values that occur: [filepath.SkipDir] and the errors of
    the system calls; nil is [None]. *)
Inductive error : Type :=
  | SkipDir
  | PathError (e : Errno).

Global Instance error_eq_dec : EqDecision error.
Proof. solve_decision. Defined.

Definition visit (fs : tree) (path : string) (f : option FileInfo)
    (err : option error) (allProjects : Projects)
  : result (option error * Projects) :=
  b ← isGogoRepo fs path;
  if b : bool then
    allProjects' ← parsegoRepo path allProjects;
    Ok (Some SkipDir, allProjects')
  else Ok (None, allProjects).

Section Walk.
Context {St : Type}.
Variable fs : tree.
Variable walkFn :
  string → option FileInfo → option error → St → result (option error * St).

(** The state of a walk: the state of the callback and, as a ghost, the
    paths the callback was called on, in order. *)
Definition call (path : string) (info : option FileInfo) (err : option error)
    (st : St * list string) : result (option error * (St * list string)) :=
  match walkFn path info err st.1 with
  | Ok (e, s) => Ok (e, (s, st.2 ++ [path]))
  | Panic p => Panic p
  end.

(** The loop of [walk] over the names of a directory; [rec] is [walk]
    itself. [None] is for a recursion deeper than the fuel. *)
Definition walk_names
    (rec : string → FileInfo → St * list string →
           option (result (option error * (St * list string))))
    (path : string)
  : list string → St * list string →
    option (result (option error * (St * list string))) :=
  fix loop names st :=
    match names with
    | [] => Some (Ok (None, st))
    | name :: names' =>
        let filename := filepath_Join path name in
        let '(fileInfo, err) := os_Lstat fs filename in
        match err, fileInfo with
        | Some e, _ =>
            match call filename fileInfo (Some (PathError e)) st with
            | Panic p => Some (Panic p)
            | Ok (Some e', st') =>
                if decide (e' = SkipDir) then loop names' st'
                else Some (Ok (Some e', st'))
            | Ok (None, st') => loop names' st'
            end
        | None, Some fi =>
            match rec filename fi st with
            | None => None
            | Some (Panic p) => Some (Panic p)
            | Some (Ok (Some e', st')) =>
                if negb (IsDir fi) || negb (bool_decide (e' = SkipDir))
                then Some (Ok (Some e', st'))
                else loop names' st'
            | Some (Ok (None, st')) => loop names' st'
            end
        | None, None => Some (Panic NilDereference)
        end
    end.

(** [walk] of path/filepath. *)
Fixpoint walk (fuel : nat) (path : string) (info : FileInfo)
    (st : St * list string)
  : option (result (option error * (St * list string))) :=
  match fuel with
  | O => None
  | S fuel' =>
      if negb (IsDir info) then Some (call path (Some info) None st)
      else
        let '(names, err) := readDirNames fs path in
        match call path (Some info) (PathError <$> err) st with
        | Panic p => Some (Panic p)
        | Ok (err1, st1) =>
            if bool_decide (is_Some err) || bool_decide (is_Some err1)
            then Some (Ok (err1, st1))
            else walk_names (walk fuel') path names st1
        end
  end.

(** [filepath.Walk]. *)
Definition filepath_Walk (fuel : nat) (root : string) (st : St * list string)
  : option (result (option error * (St * list string))) :=
  let '(info, err) := os_Lstat fs root in
  let r :=
    match err, info with
    | Some e, _ => Some (call root None (Some (PathError e)) st)
    | None, Some fi => walk fuel root fi st
    | None, None => Some (Panic NilDereference)
    end in
  match r with
  | Some (Ok (Some SkipDir, st')) => Some (Ok (None, st'))
  | _ => r
  end.
End Walk.

(** [main], with the value of [GOPATH], from [allProjects = NewProjects()]:
    the catalog that [printResult] is called on and the paths visited. *)
Definition main (fs : tree) (gopath : string) (fuel : nat)
  : option (result (Projects * list string)) :=
  if decide (gopath = EmptyString) then Some (Ok (NewProjects, []))
  else
    match filepath_Walk fs (visit fs) fuel (path_Join gopath "src") (NewProjects, []) with
    | None => None
    | Some (Panic p) => Some (Panic p)
    | Some (Ok (_, st)) => Some (Ok st)
    end.

(** The tree of the end-to-end scenario. *)
Definition scenario : tree :=
  Dir [("ws", Dir [("src", Dir [("github.com", Dir [
    ("alice", Dir [("proj1", Dir [(".git", Dir []); ("main.go", File);
                                 ("vendor", Dir [("lib", Dir [(".git", Dir [])])])])]);
    ("bob", Dir [("proj2", Dir [(".git", Dir [])])])])])])].

(** What the walk of the scenario leaves in the catalog, and its trace. *)
Definition scenario_repos : list goRepo :=
  [ {| goRepo_source := "proj1"; goRepo_owner := "alice"; goRepo_repo := "github.com" |};
    {| goRepo_source := "proj2"; goRepo_owner := "bob"; goRepo_repo := "github.com" |} ].

Definition scenario_trace : list string :=
  [ "/ws/src"; "/ws/src/github.com"; "/ws/src/github.com/alice";
    "/ws/src/github.com/alice/proj1"; "/ws/src/github.com/bob";
    "/ws/src/github.com/bob/proj2" ].

(** ** Well-formed trees and what a walk finds in them

    The names of the entries of a directory are distinct, none is empty,
    [.] or [..], none holds a separator. A directory is written with its
    entries in the order in which [readDirNames] lists them (the order of
    [sort.Strings]): every directory has exactly one such writing, so this
    is a normal form and no restriction on the file systems covered. *)

Fixpoint has_separator (s : string) : bool :=
  match s with
  | EmptyString => false
  | String c s' => Ascii.eqb c Separator || has_separator s'
  end.

Definition valid_name (n : string) : bool :=
  bool_decide (n ≠ EmptyString ∧ n ≠ "." ∧ n ≠ "..") && negb (has_separator n).

Fixpoint wf_tree (t : tree) : bool :=
  match t with
  | File => true
  | Dir es =>
      forallb valid_name es.*1
      && bool_decide (NoDup es.*1)
      && bool_decide (merge_sort String.le es.*1 = es.*1)
      && forallb (λ e, wf_tree e.2) es
  end.

Fixpoint height (t : tree) : nat :=
  match t with
  | File => O
  | Dir es => S (foldr (λ e h, Nat.max (height e.2) h) O es)
  end.

(** The node a path names, if it names one. *)
Definition node_at (fs : tree) (path : string) : option tree :=
  match realpath fs path with
  | inr L => get_node fs (rev L)
  | inl _ => None
  end.

(** A directory that holds a directory named [.git]. *)
Definition is_repo_node (t : tree) : bool :=
  match t with
  | Dir es => match lookup_entry ".git" es with
              | Some (Dir _) => true
              | _ => false
              end
  | File => false
  end.

(** The paths on which a walk that starts at node [t], named [path], calls
    [visit], and those among them that are repository roots, in order. *)
Fixpoint visited (path : string) (t : tree) : list string :=
  path ::
    (if is_repo_node t then []
     else match t with
          | File => []
          | Dir es => flat_map (λ e, visited (filepath_Join path e.1) e.2) es
          end).

Fixpoint found (path : string) (t : tree) : list string :=
  if is_repo_node t then [path]
  else match t with
       | File => []
       | Dir es => flat_map (λ e, found (filepath_Join path e.1) e.2) es
       end.

(** The same walk in terms of locations: [L] is the location of [t]. *)
Fixpoint visited_locs (L : list string) (t : tree) : list (list string) :=
  L ::
    (if is_repo_node t then []
     else match t with
          | File => []
          | Dir es => flat_map (λ e, visited_locs (e.1 :: L) e.2) es
          end).

(** The paths of all the nodes at and below [t], as a walk that never
    skips a directory would visit them. *)
Fixpoint all_paths (path : string) (t : tree) : list string :=
  path ::
    match t with
    | File => []
    | Dir es => flat_map (λ e, all_paths (filepath_Join path e.1) e.2) es
    end.

Definition all_paths_from (fs : tree) (root : string) : list string :=
  match node_at fs root with
  | Some t => all_paths root t
  | None => [root]
  end.

(** [a] is at or below [b]; [a] is strictly below [b]. *)
Definition below (fs : tree) (a b : string) : Prop :=
  ∃ La Lb k, realpath fs a = inr La ∧ realpath fs b = inr Lb ∧ La = k ++ Lb.


(** How a walk ends: with the error [e] and the paths [tr] when the
    catalog could be built, with the panic otherwise. *)
Definition finish (e : option error) (tr : list string) (r : result Projects)
  : result (option error * (Projects * list string)) :=
  match r with
  | Ok P => Ok (e, (P, tr))
  | Panic x => Panic x
  end.

(** [parsegoRepo] on each path of a list in turn. *)
Fixpoint parse_all (paths : list string) (P : Projects) : result Projects :=
  match paths with
  | [] => Ok P
  | path :: paths' => P' ← parsegoRepo path P; parse_all paths' P'
  end.

(** ** Notions used in the statements *)

(** The (owner, source) pair under which a repository is indexed. *)
Definition pair_of (r : goRepo) : string * string :=
  (goRepo_owner r, goRepo_source r).

(** Every stored repository has its source and its owner in the indexes. *)
Definition indexed (p : Projects) : Prop :=
  ∀ r, r ∈ Projects_repos p →
    mapget (sourcesList_sources (Projects_sources p)) (newSource (goRepo_source r)) = true
    ∧ mapget (ownersList_owners (Projects_owners p))
             (newOwner (goRepo_owner r) (goRepo_source r)) = true.

(** The catalog after [AddRepo] on each of [rs], from [NewProjects()]. *)
Definition run (rs : list goRepo) : Projects := foldl AddRepo NewProjects rs.

(** A component that names an entry. *)
Definition normal (n : string) : Prop := n ≠ EmptyString ∧ n ≠ "." ∧ n ≠ "..".

(** What [clean_segs] keeps in its output: no empty component, no [.],
    and no [..] when the path is rooted. *)
Definition out_ok (is_rooted : bool) (out : list string) : Prop :=
  Forall (λ c, c ≠ EmptyString ∧ c ≠ "." ∧ (is_rooted = true → c ≠ "..")) out.

(** The result of [filepath.Walk] with [visit], when the fuel suffices. *)
Definition Walk_result (fs : tree) (root : string) (P : Projects) (tr : list string)
  : result (option error * (Projects * list string)) :=
  match realpath fs root with
  | inr L =>
      match get_node fs (rev L) with
      | Some t => finish None (tr ++ visited root t) (parse_all (found root t) P)
      | None => Ok (None, (P, tr ++ [root]))
      end
  | inl ENOENT => Ok (None, (P, tr ++ [root]))
  | inl ENOTDIR => Panic NilDereference
  end.

(** A workspace whose root is itself a repository root. *)
Definition shallow : tree := Dir [("src", Dir [(".git", Dir [])])].

(** ** The output

    [printResult] writes one line for each repository with
    [fmt.Printf("%d:  %s\t%s\t%s\n", i, project.repo, project.owner,
    project.source)]; the embedding gives the bytes written to the standard
    output. *)

(** The verb [%d] on an index of a slice. *)
Definition itoa (i : nat) : string := NilEmpty.string_of_uint (Nat.to_uint i).

Definition TAB : string := String "009"%char EmptyString.
Definition NEWLINE : string := String "010"%char EmptyString.

Definition Printf_project (i : nat) (project : goRepo) : string :=
  itoa i +:+ ":  " +:+ goRepo_repo project +:+ TAB +:+ goRepo_owner project
    +:+ TAB +:+ goRepo_source project +:+ NEWLINE.

Definition printResult (allProjects : Projects) : string :=
  foldr String.append EmptyString (imap Printf_project (Projects_repos allProjects)).

(** What [main] writes: nothing when [GOPATH] is empty, otherwise the
    result of [printResult] on the catalog after the walk. *)
Definition main_stdout (fs : tree) (gopath : string) (fuel : nat)
  : option (result string) :=
  if decide (gopath = EmptyString) then Some (Ok EmptyString)
  else
    match filepath_Walk fs (visit fs) fuel (path_Join gopath "src") (NewProjects, []) with
    | None => None
    | Some (Panic p) => Some (Panic p)
    | Some (Ok (_, st)) => Some (Ok (printResult st.1))
    end.

(** The number of separators in a path. *)
Fixpoint count_separators (s : string) : nat :=
  match s with
  | EmptyString => O
  | String c s' =>
      if Ascii.eqb c Separator then S (count_separators s') else count_separators s'
  end.

(** The clean absolute path with the given components. *)
Definition abs_path (names : list string) : string := "/" +:+ Joinsep names.

(** The index keys that a list of repositories gives rise to. *)
Definition source_keys (rs : list goRepo) : list sourceType :=
  (λ r, newSource (goRepo_source r)) <$> rs.

Definition owner_keys (rs : list goRepo) : list ownerType :=
  (λ r, newOwner (goRepo_owner r) (goRepo_source r)) <$> rs.

(** The check of [visit] as a boolean: true where [isGogoRepo] returns
    true. *)
Definition is_root (fs : tree) (path : string) : bool :=
  match isGogoRepo fs path with
  | Ok true => true
  | _ => false
  end.

(** * Verification *)

(** ** The catalog *)

Section catalog.
Implicit Types (p : Projects) (r : goRepo) (s : sourcesList) (o : ownersList).

Lemma mapget_insert_true `{Countable K} (m : gmap K bool) (k k' : K) :
  mapget m k' = true → mapget (<[k := true]> m) k' = true.
Proof.
  unfold mapget. intros Hk'. destruct (decide (k = k')) as [->|Hne].
  - by rewrite lookup_insert_eq.
  - by rewrite lookup_insert_ne.
Qed.

Lemma addSource_mapget_same s k :
  mapget (sourcesList_sources (addSource s k)) k = true.
Proof.
  unfold addSource; simpl.
  destruct (mapget (sourcesList_sources s) k) eqn:E; simpl; [done|].
  unfold mapget. by rewrite lookup_insert_eq.
Qed.

Lemma addSource_mapget_mono s k k' :
  mapget (sourcesList_sources s) k' = true →
  mapget (sourcesList_sources (addSource s k)) k' = true.
Proof.
  unfold addSource; simpl. intros Hk'.
  destruct (mapget (sourcesList_sources s) k); simpl; [done|].
  by apply mapget_insert_true.
Qed.

Lemma addOwner_mapget_same o k :
  mapget (ownersList_owners (addOwner o k)) k = true.
Proof.
  unfold addOwner; simpl.
  destruct (mapget (ownersList_owners o) k) eqn:E; simpl; [done|].
  unfold mapget. by rewrite lookup_insert_eq.
Qed.

Lemma addOwner_mapget_mono o k k' :
  mapget (ownersList_owners o) k' = true →
  mapget (ownersList_owners (addOwner o k)) k' = true.
Proof.
  unfold addOwner; simpl. intros Hk'.
  destruct (mapget (ownersList_owners o) k); simpl; [done|].
  by apply mapget_insert_true.
Qed.

(** Adding a key that reads [true] changes nothing in the map. *)
Lemma addSource_present s k :
  mapget (sourcesList_sources s) k = true →
  sourcesList_sources (addSource s k) = sourcesList_sources s.
Proof. unfold addSource; simpl. by intros ->. Qed.

Lemma addOwner_present o k :
  mapget (ownersList_owners o) k = true →
  ownersList_owners (addOwner o k) = ownersList_owners o.
Proof. unfold addOwner; simpl. by intros ->. Qed.

Lemma addSource_maxLength s k :
  sourcesList_maxLength (addSource s k)
  = Z.max (sourcesList_maxLength s) (len (sourceType_source k)).
Proof.
  unfold addSource; simpl.
  destruct (Z.gtb_spec (len (sourceType_source k)) (sourcesList_maxLength s)); lia.
Qed.

Lemma addOwner_maxLength o k :
  ownersList_maxLength (addOwner o k)
  = Z.max (ownersList_maxLength o) (len (ownerType_owner k)).
Proof.
  unfold addOwner; simpl.
  destruct (Z.gtb_spec (len (ownerType_owner k)) (ownersList_maxLength o)); lia.
Qed.

Lemma indexed_NewProjects : indexed NewProjects.
Proof. intros r Hr. simpl in Hr. by apply elem_of_nil in Hr. Qed.

Lemma indexed_AddRepo p r : indexed p → indexed (AddRepo p r).
Proof.
  intros Hp r' Hr'. simpl in *.
  apply elem_of_app in Hr' as [Hr'|Hr'].
  - destruct (Hp r' Hr') as [Hs Ho]. split.
    + by apply addSource_mapget_mono.
    + by apply addOwner_mapget_mono.
  - apply list_elem_of_singleton in Hr' as ->. split.
    + apply addSource_mapget_same.
    + apply addOwner_mapget_same.
Qed.

(** The keys of the indexes after a sequence of calls. *)
Lemma addSource_dom s k :
  dom (sourcesList_sources (addSource s k)) = {[k]} ∪ dom (sourcesList_sources s).
Proof.
  unfold addSource; simpl.
  destruct (mapget (sourcesList_sources s) k) eqn:E; simpl.
  - unfold mapget in E.
    destruct (sourcesList_sources s !! k) eqn:E'; [|done].
    apply (elem_of_dom_2 (D := gset sourceType)) in E'. set_solver.
  - apply dom_insert_L.
Qed.

Lemma addOwner_dom o k :
  dom (ownersList_owners (addOwner o k)) = {[k]} ∪ dom (ownersList_owners o).
Proof.
  unfold addOwner; simpl.
  destruct (mapget (ownersList_owners o) k) eqn:E; simpl.
  - unfold mapget in E.
    destruct (ownersList_owners o !! k) eqn:E'; [|done].
    apply (elem_of_dom_2 (D := gset ownerType)) in E'. set_solver.
  - apply dom_insert_L.
Qed.

Lemma foldl_AddRepo_dom_sources p rs :
  dom (sourcesList_sources (Projects_sources (foldl AddRepo p rs)))
  = list_to_set ((λ r, newSource (goRepo_source r)) <$> rs)
    ∪ dom (sourcesList_sources (Projects_sources p)).
Proof.
  revert p. induction rs as [|r rs IH]; intros p; [set_solver|].
  rewrite fmap_cons, list_to_set_cons. cbn [foldl]. rewrite IH.
  cbn [AddRepo Projects_sources]. rewrite addSource_dom. set_solver.
Qed.

Lemma foldl_AddRepo_dom_owners p rs :
  dom (ownersList_owners (Projects_owners (foldl AddRepo p rs)))
  = list_to_set ((λ r, newOwner (goRepo_owner r) (goRepo_source r)) <$> rs)
    ∪ dom (ownersList_owners (Projects_owners p)).
Proof.
  revert p. induction rs as [|r rs IH]; intros p; [set_solver|].
  rewrite fmap_cons, list_to_set_cons. cbn [foldl]. rewrite IH.
  cbn [AddRepo Projects_owners]. rewrite addOwner_dom. set_solver.
Qed.

Lemma Sources_NoDup p : NoDup (Sources p).
Proof.
  assert (Hinj : Inj (=) (=) sourceType_source) by (intros [a] [b]; simpl; congruence).
  replace (Sources p) with
    (sourceType_source <$> (map_to_list (sourcesList_sources (Projects_sources p))).*1)
    by (unfold Sources; by rewrite <-list_fmap_compose).
  apply (NoDup_fmap_2 _), NoDup_fst_map_to_list.
Qed.

Lemma Owners_keys p :
  Owners p = ownerType_owner <$> (map_to_list (ownersList_owners (Projects_owners p))).*1.
Proof. unfold Owners. by rewrite <-list_fmap_compose. Qed.

Lemma owner_keys_perm (rs : list goRepo) :
  (map_to_list (ownersList_owners (Projects_owners (foldl AddRepo NewProjects rs)))).*1
  ≡ₚ (λ q, newOwner q.1 q.2) <$> remove_dups (pair_of <$> rs).
Proof.
  assert (Hinj : Inj (=) (=) (λ q : string * string, newOwner q.1 q.2)).
  { intros [a b] [c d]; simpl. unfold newOwner. congruence. }
  apply NoDup_Permutation.
  - apply NoDup_fst_map_to_list.
  - apply (NoDup_fmap_2 _), NoDup_remove_dups.
  - intros k. rewrite list_elem_of_fmap. split.
    + intros (kb & -> & Hkb). destruct kb as [k' b].
      apply elem_of_map_to_list in Hkb. simpl.
      apply (elem_of_dom_2 (D := gset ownerType)) in Hkb.
      rewrite foldl_AddRepo_dom_owners in Hkb.
      apply elem_of_union in Hkb as [Hkb|Hkb];
        [|by apply elem_of_dom in Hkb as [? ?]].
      apply elem_of_list_to_set in Hkb.
      apply list_elem_of_fmap in Hkb as (r & -> & Hr).
      apply list_elem_of_fmap. exists (pair_of r). split; [done|].
      apply elem_of_remove_dups, list_elem_of_fmap. eauto.
    + intros Hq. apply list_elem_of_fmap in Hq as (q & -> & Hq).
      destruct q as [a b]. rewrite elem_of_remove_dups in Hq.
      apply list_elem_of_fmap in Hq as (r & Hr & Hin). simpl.
      assert (newOwner a b ∈ dom (ownersList_owners
                (Projects_owners (foldl AddRepo NewProjects rs)))) as Hd.
      { rewrite foldl_AddRepo_dom_owners, elem_of_union, elem_of_list_to_set.
        left. apply list_elem_of_fmap. exists r. split; [|done].
        unfold pair_of in Hr. by inversion Hr. }
      apply elem_of_dom in Hd as [v Hv].
      exists (newOwner a b, v). split; [done|]. by apply elem_of_map_to_list.
Qed.
End catalog.

(** ** Claims on the catalog *)

Lemma foldr_Zmax_start (a x : Z) (l : list Z) :
  foldr Z.max (Z.max a x) l = Z.max x (foldr Z.max a l).
Proof. induction l as [|y l IH]; simpl; lia. Qed.

Lemma foldl_addSource_maxLength (s : sourcesList) (srcs : list sourceType) :
  sourcesList_maxLength (foldl addSource s srcs)
  = foldr Z.max (sourcesList_maxLength s) (len ∘ sourceType_source <$> srcs).
Proof.
  revert s. induction srcs as [|k srcs IH]; intros s; [done|].
  cbn [foldl]. rewrite IH, addSource_maxLength, fmap_cons. cbn [foldr].
  apply foldr_Zmax_start.
Qed.

Lemma foldl_addOwner_maxLength (o : ownersList) (owners : list ownerType) :
  ownersList_maxLength (foldl addOwner o owners)
  = foldr Z.max (ownersList_maxLength o) (len ∘ ownerType_owner <$> owners).
Proof.
  revert o. induction owners as [|k owners IH]; intros o; [done|].
  cbn [foldl]. rewrite IH, addOwner_maxLength, fmap_cons. cbn [foldr].
  apply foldr_Zmax_start.
Qed.

(** C10. After any sequence of [addSource] calls on [newSourcesList()],
    [maxLength] is the greatest length of the names passed (0 when there
    were none); one call takes the maximum of the old value and the length
    of the name whether the name is already in the map or not. The same
    holds for [addOwner] and the owner names. *)
Theorem maxLength_is_longest_name :
  (∀ srcs : list sourceType,
     sourcesList_maxLength (foldl addSource newSourcesList srcs)
     = foldr Z.max 0 (len ∘ sourceType_source <$> srcs))
  ∧ (∀ (s : sourcesList) (k : sourceType),
       sourcesList_maxLength (addSource s k)
       = Z.max (sourcesList_maxLength s) (len (sourceType_source k)))
  ∧ (∀ owners : list ownerType,
       ownersList_maxLength (foldl addOwner newOwnersList owners)
       = foldr Z.max 0 (len ∘ ownerType_owner <$> owners))
  ∧ (∀ (o : ownersList) (k : ownerType),
       ownersList_maxLength (addOwner o k)
       = Z.max (ownersList_maxLength o) (len (ownerType_owner k))).
Proof.
  repeat split.
  - intros srcs. apply foldl_addSource_maxLength.
  - apply addSource_maxLength.
  - intros owners. apply foldl_addOwner_maxLength.
  - apply addOwner_maxLength.
Qed.

(** C4. Calling [AddRepo] with the same repository twice: the second call
    leaves both indexes as the first call left them, so [Sources()], the
    owner index and [Owners()] keep their cardinality, while the slice of
    repositories grows by one at each call. *)
Theorem AddRepo_twice (p : Projects) (r : goRepo) :
  let p1 := AddRepo p r in
  let p2 := AddRepo p1 r in
  length (Sources p2) = length (Sources p1)
  ∧ size (ownersList_owners (Projects_owners p2))
    = size (ownersList_owners (Projects_owners p1))
  ∧ length (Owners p2) = length (Owners p1)
  ∧ length (Projects_repos p1) = S (length (Projects_repos p))
  ∧ length (Projects_repos p2) = S (length (Projects_repos p1)).
Proof.
  intros p1 p2.
  assert (Hs : sourcesList_sources (Projects_sources p2)
               = sourcesList_sources (Projects_sources p1)).
  { apply addSource_present, addSource_mapget_same. }
  assert (Ho : ownersList_owners (Projects_owners p2)
               = ownersList_owners (Projects_owners p1)).
  { apply addOwner_present, addOwner_mapget_same. }
  unfold Sources, Owners. rewrite Hs, Ho.
  repeat split; subst p1 p2; cbn [AddRepo Projects_repos];
    rewrite !length_app; simpl; lia.
Qed.

(** C5. From [NewProjects()], after any sequence of [AddRepo] calls every
    stored repository has its source in the source index and its
    (owner, source) pair in the owner index; and one more [AddRepo] call
    keeps this true in any catalog in which it holds. *)
Theorem AddRepo_keeps_indexed :
  (∀ rs : list goRepo, indexed (run rs))
  ∧ (∀ (p : Projects) (r : goRepo), indexed p → indexed (AddRepo p r)).
Proof.
  split; [|apply indexed_AddRepo].
  intros rs. unfold run. induction rs as [|r rs IH] using rev_ind.
  - apply indexed_NewProjects.
  - rewrite foldl_snoc. by apply indexed_AddRepo.
Qed.

Lemma AddRepo_keeps_indexed_witness :
  indexed NewProjects
  ∧ indexed (AddRepo NewProjects
      {| goRepo_source := "github.com"; goRepo_owner := "alice"; goRepo_repo := "proj1" |}).
Proof.
  split.
  - apply indexed_NewProjects.
  - apply (proj2 AddRepo_keeps_indexed). apply indexed_NewProjects.
Defined.

(** C3, as amended. [Sources()] never holds a string twice. [Owners()]
    holds one string for each distinct (owner, source) pair among the
    repositories added: an owner name is listed once for every source it
    occurs under. *)
Theorem Sources_distinct_Owners_per_pair (rs : list goRepo) :
  NoDup (Sources (run rs))
  ∧ Owners (run rs) ≡ₚ (remove_dups (pair_of <$> rs)).*1.
Proof.
  split; [apply Sources_NoDup|].
  rewrite Owners_keys. unfold run. rewrite owner_keys_perm.
  rewrite <-list_fmap_compose. done.
Qed.

(** C3 does not hold of [Owners()]: the same owner name under two sources
    is listed twice. *)
Lemma Owners_repeats_name :
  ¬ (∀ rs : list goRepo, NoDup (Sources (run rs)) ∧ NoDup (Owners (run rs))).
Proof.
  intros H.
  destruct (H [ {| goRepo_source := "github.com"; goRepo_owner := "alice"; goRepo_repo := "proj1" |};
                {| goRepo_source := "gitlab.com"; goRepo_owner := "alice"; goRepo_repo := "proj2" |} ])
    as [_ Hdup].
  assert (E : Owners (run [ {| goRepo_source := "github.com"; goRepo_owner := "alice"; goRepo_repo := "proj1" |};
                {| goRepo_source := "gitlab.com"; goRepo_owner := "alice"; goRepo_repo := "proj2" |} ])
              = ["alice"; "alice"]) by (vm_compute; reflexivity).
  rewrite E in Hdup. apply NoDup_cons in Hdup as [Hnin _].
  apply Hnin. by left.
Qed.

(** ** Claims on the decomposition of a path *)

Lemma index_lookup {A} (parts : list A) (i : nat) (x : A) :
  parts !! i = Some x → index parts (Z.of_nat i) = Ok x.
Proof.
  intros Hx. unfold index. pose proof (lookup_lt_Some _ _ _ Hx) as Hlt.
  replace (Z.of_nat i <? 0) with false by lia.
  replace (Z.of_nat (length parts) <=? Z.of_nat i) with false by lia.
  simpl. by rewrite Nat2Z.id, Hx.
Qed.

Lemma last_three {A} (l : list A) :
  (3 ≤ length l)%nat → ∃ pre c b a, l = pre ++ [c; b; a].
Proof.
  intros Hl. exists (take (length l - 3) l).
  pose proof (take_drop (length l - 3) l) as Htd.
  pose proof (length_drop l (length l - 3)) as Hd.
  destruct (drop (length l - 3) l) as [|c [|b [|a [|? ?]]]]; simpl in Hd; try lia.
  by exists c, b, a.
Qed.

Lemma Split_nonempty (s : string) (sep : ascii) : Split s sep ≠ [].
Proof.
  destruct s as [|c s]; simpl; [done|].
  destruct (Ascii.eqb c sep); [done|]. by destruct (Split s sep).
Qed.

Lemma parsegoRepo_segments (path : string) (P : Projects) (pre : list string)
    (repo owner source : string) :
  Split path Separator = pre ++ [repo; owner; source] →
  index (Split path Separator) (Z.of_nat (length (Split path Separator)) - 1) = Ok source
  ∧ index (Split path Separator) (Z.of_nat (length (Split path Separator)) - 2) = Ok owner
  ∧ index (Split path Separator) (Z.of_nat (length (Split path Separator)) - 3) = Ok repo
  ∧ parsegoRepo path P
    = Ok (AddRepo P {| goRepo_source := source; goRepo_owner := owner;
                       goRepo_repo := repo |}).
Proof.
  intros Hparts. unfold parsegoRepo. rewrite Hparts.
  rewrite length_app. cbn [length].
  replace (Z.of_nat (length pre + 3) - 1) with (Z.of_nat (length pre + 2)) by lia.
  replace (Z.of_nat (length pre + 3) - 2) with (Z.of_nat (length pre + 1)) by lia.
  replace (Z.of_nat (length pre + 3) - 3) with (Z.of_nat (length pre + 0)) by lia.
  assert (H1 : (pre ++ [repo; owner; source]) !! (length pre + 2)%nat = Some source)
    by (by rewrite lookup_app_r, Nat.add_comm, Nat.add_sub by lia).
  assert (H2 : (pre ++ [repo; owner; source]) !! (length pre + 1)%nat = Some owner)
    by (by rewrite lookup_app_r, Nat.add_comm, Nat.add_sub by lia).
  assert (H3 : (pre ++ [repo; owner; source]) !! (length pre + 0)%nat = Some repo)
    by (by rewrite lookup_app_r, Nat.add_comm, Nat.add_sub by lia).
  rewrite (index_lookup _ _ _ H1), (index_lookup _ _ _ H2), (index_lookup _ _ _ H3).
  done.
Qed.

(** C2. When the split of a path has n >= 3 segments, [parsegoRepo] adds
    the record whose source is segment n-1, whose owner is segment n-2 and
    whose repo is segment n-3: the last three segments, taken as they are,
    whatever they contain. *)
Theorem parsegoRepo_last_three (path : string) (P : Projects) :
  let parts := Split path Separator in
  let n := length parts in
  (3 ≤ n)%nat →
  ∃ (pre : list string) (repo owner source : string),
    parts = pre ++ [repo; owner; source]
    ∧ parts !! (n - 1)%nat = Some source
    ∧ parts !! (n - 2)%nat = Some owner
    ∧ parts !! (n - 3)%nat = Some repo
    ∧ parsegoRepo path P
      = Ok (AddRepo P {| goRepo_source := source; goRepo_owner := owner;
                         goRepo_repo := repo |}).
Proof.
  intros parts n Hn.
  destruct (last_three parts Hn) as (pre & repo & owner & source & Hparts).
  exists pre, repo, owner, source. split; [done|].
  subst n. rewrite Hparts, length_app. cbn [length].
  replace (length pre + 3 - 1)%nat with (length pre + 2)%nat by lia.
  replace (length pre + 3 - 2)%nat with (length pre + 1)%nat by lia.
  replace (length pre + 3 - 3)%nat with (length pre + 0)%nat by lia.
  repeat split; try (by rewrite lookup_app_r, Nat.add_comm, Nat.add_sub by lia).
  by destruct (parsegoRepo_segments path P pre repo owner source Hparts)
    as (_ & _ & _ & ?).
Qed.

Lemma parsegoRepo_last_three_witness :
  ∃ (pre : list string) (repo owner source : string),
    Split "/ws/src/github.com/alice/proj1" Separator = pre ++ [repo; owner; source]
    ∧ Split "/ws/src/github.com/alice/proj1" Separator !! (6 - 1)%nat = Some source
    ∧ Split "/ws/src/github.com/alice/proj1" Separator !! (6 - 2)%nat = Some owner
    ∧ Split "/ws/src/github.com/alice/proj1" Separator !! (6 - 3)%nat = Some repo
    ∧ parsegoRepo "/ws/src/github.com/alice/proj1" NewProjects
      = Ok (AddRepo NewProjects {| goRepo_source := source; goRepo_owner := owner;
                                   goRepo_repo := repo |}).
Proof.
  apply (parsegoRepo_last_three "/ws/src/github.com/alice/proj1" NewProjects).
  vm_compute. lia.
Defined.

Lemma parsegoRepo_short (path : string) (P : Projects) :
  (length (Split path Separator) < 3)%nat →
  ∃ i : Z, i < 0
    ∧ parsegoRepo path P
      = Panic (IndexOutOfRange i (Z.of_nat (length (Split path Separator)))).
Proof.
  intros Hn. unfold parsegoRepo.
  pose proof (Split_nonempty path Separator) as Hne.
  destruct (Split path Separator) as [|a [|b [|c parts]]] eqn:E;
    [done| | |simpl in Hn; lia].
  - exists (-1). split; [lia|]. reflexivity.
  - exists (-1). split; [lia|]. reflexivity.
Qed.

(** C7. With at least 3 segments the three index accesses of [parsegoRepo]
    are in bounds and it returns; with fewer than 3 segments (the empty path
    is one such input) an access at a negative index panics. *)
Theorem parsegoRepo_bounds :
  (∀ (path : string) (P : Projects),
     let parts := Split path Separator in
     let n := Z.of_nat (length parts) in
     3 ≤ n →
     (∃ source, index parts (n - 1) = Ok source)
     ∧ (∃ owner, index parts (n - 2) = Ok owner)
     ∧ (∃ repo, index parts (n - 3) = Ok repo)
     ∧ ∃ P', parsegoRepo path P = Ok P')
  ∧ (∀ (path : string) (P : Projects),
       let parts := Split path Separator in
       let n := Z.of_nat (length parts) in
       n < 3 →
       ∃ i : Z, i < 0 ∧ parsegoRepo path P = Panic (IndexOutOfRange i n))
  ∧ (∃ path : string,
       Z.of_nat (length (Split path Separator)) < 3
       ∧ ∀ P : Projects, ∃ i n : Z,
           parsegoRepo path P = Panic (IndexOutOfRange i n)).
Proof.
  split; [|split].
  - intros path P parts n Hn.
    destruct (last_three parts) as (pre & repo & owner & source & Hparts); [lia|].
    destruct (parsegoRepo_segments path P pre repo owner source Hparts)
      as (H1 & H2 & H3 & H4).
    subst parts n. eauto 10.
  - intros path P parts n Hn. subst parts n. apply parsegoRepo_short. lia.
  - exists "src". split; [vm_compute; reflexivity|].
    intros P. exists (-1), 1. reflexivity.
Qed.

Lemma parsegoRepo_bounds_witness :
  (∃ P', parsegoRepo "/ws/src/github.com/alice/proj1" NewProjects = Ok P')
  ∧ (∃ i : Z, i < 0
       ∧ parsegoRepo "/src" NewProjects = Panic (IndexOutOfRange i 2)).
Proof.
  split.
  - apply (proj1 parsegoRepo_bounds "/ws/src/github.com/alice/proj1" NewProjects).
    vm_compute. discriminate.
  - apply (proj1 (proj2 parsegoRepo_bounds) "/src" NewProjects).
    vm_compute. reflexivity.
Defined.

(** ** Paths and their resolution *)

Lemma tree_ind (P : tree → Prop) :
  P File →
  (∀ es : list (string * tree), Forall (λ e, P e.2) es → P (Dir es)) →
  ∀ t : tree, P t.
Proof.
  intros HF HD. fix IH 1. intros [|es]; [exact HF|].
  apply HD. induction es as [|[n c] es IHes]; constructor; [apply IH|exact IHes].
Qed.

Section strings.
Lemma app_cons (c : ascii) (a b : string) : String c a +:+ b = String c (a +:+ b).
Proof. reflexivity. Qed.

Lemma Split_app (a b : string) (sep : ascii) :
  Split (a +:+ String sep b) sep = Split a sep ++ Split b sep.
Proof.
  induction a as [|c a IH].
  - change (EmptyString +:+ String sep b) with (String sep b). simpl.
    by rewrite Ascii.eqb_refl.
  - rewrite app_cons. simpl. destruct (Ascii.eqb c sep); rewrite IH; [done|].
    pose proof (Split_nonempty a sep). by destruct (Split a sep).
Qed.

Lemma Split_no_separator (n : string) :
  has_separator n = false → Split n Separator = [n].
Proof.
  induction n as [|c n IH]; simpl; [done|].
  intros [Hc Hn]%orb_false_iff. rewrite Hc, IH; done.
Qed.

Lemma Split_pieces (s : string) :
  Forall (λ piece, has_separator piece = false) (Split s Separator).
Proof.
  induction s as [|c s IH]; simpl; [by repeat constructor|].
  destruct (Ascii.eqb c Separator) eqn:E; [by constructor|].
  destruct (Split s Separator) as [|piece pieces]; [by repeat constructor; simpl; rewrite E|].
  apply Forall_cons in IH as [Hp Hps]. constructor; [|done].
  simpl. by rewrite E.
Qed.

Lemma Joinsep_cons (e e' : string) (elems : list string) :
  Joinsep (e :: e' :: elems) = e +:+ String Separator (Joinsep (e' :: elems)).
Proof. reflexivity. Qed.

Lemma Split_Joinsep (elems : list string) :
  elems ≠ [] → Forall (λ e, has_separator e = false) elems →
  Split (Joinsep elems) Separator = elems.
Proof.
  induction elems as [|e [|e' elems] IH]; intros Hne Hall; [done| |].
  - apply Forall_cons in Hall as [He _]. by apply Split_no_separator.
  - apply Forall_cons in Hall as [He Hall].
    rewrite Joinsep_cons, Split_app, IH, Split_no_separator; done.
Qed.

Lemma Joinsep_nonempty (elems : list string) :
  elems ≠ [] → Forall (λ e, e ≠ EmptyString) elems → Joinsep elems ≠ EmptyString.
Proof.
  destruct elems as [|e [|e' elems]]; intros Hne Hall; [done| |].
  - by apply Forall_cons in Hall as [He _].
  - rewrite Joinsep_cons. apply Forall_cons in Hall as [He _].
    destruct e; [done|]. by rewrite app_cons.
Qed.

Lemma app_single (c : ascii) (b : string) : String c EmptyString +:+ b = String c b.
Proof. reflexivity. Qed.

Lemma Split_rooted (s : string) :
  Split (String Separator s) Separator = EmptyString :: Split s Separator.
Proof. reflexivity. Qed.

Lemma rooted_app (a b : string) : a ≠ EmptyString → rooted (a +:+ b) = rooted a.
Proof. by destruct a. Qed.

Lemma app_nonempty (a b : string) : a ≠ EmptyString → a +:+ b ≠ EmptyString.
Proof. by destruct a. Qed.
End strings.

Section resolution.
Variable fs : tree.
Implicit Types (L : list string) (n seg : string).

Lemma valid_name_spec n :
  valid_name n = true → normal n ∧ has_separator n = false.
Proof.
  unfold valid_name. intros [Hn Hs]%andb_true_iff.
  apply bool_decide_eq_true in Hn. by apply negb_true_iff in Hs.
Qed.

Lemma get_node_app (t : tree) (a b : list string) :
  get_node t (a ++ b) = get_node t a ≫= λ t', get_node t' b.
Proof.
  revert t. induction a as [|n a IH]; intros t; simpl; [done|].
  destruct t as [|es]; [done|]. destruct (lookup_entry n es); [apply IH|done].
Qed.

Lemma get_node_snoc (t : tree) (a : list string) n (es : list (string * tree)) :
  get_node t a = Some (Dir es) → get_node t (a ++ [n]) = lookup_entry n es.
Proof.
  intros Ha. rewrite get_node_app, Ha. simpl. by destruct (lookup_entry n es).
Qed.

Lemma walk_component_normal L n (es : list (string * tree)) :
  normal n → get_node fs (rev L) = Some (Dir es) →
  walk_component fs L n
  = match lookup_entry n es with
    | Some _ => inr (n :: L)
    | None => inl ENOENT
    end.
Proof.
  intros (H1 & H2 & H3) HL. unfold walk_component. rewrite HL.
  destruct (decide (n = EmptyString ∨ n = ".")) as [[?|?]|_]; [done..|].
  by destruct (decide (n = "..")).
Qed.

Lemma walk_component_inr L seg L' :
  walk_component fs L seg = inr L' →
  (∃ es, get_node fs (rev L) = Some (Dir es))
  ∧ (if decide (seg = EmptyString ∨ seg = ".") then L' = L
     else if decide (seg = "..") then L' = tail L
     else L' = seg :: L).
Proof.
  unfold walk_component.
  destruct (get_node fs (rev L)) as [[|es]|]; [done| |done].
  intros H. split; [by eexists|].
  destruct (decide (seg = EmptyString ∨ seg = ".")); [congruence|].
  destruct (decide (seg = "..")); [congruence|].
  destruct (lookup_entry seg es); congruence.
Qed.

Lemma namei_app (a b : list string) L :
  namei fs (a ++ b) L
  = match namei fs a L with
    | inr L' => namei fs b L'
    | inl e => inl e
    end.
Proof.
  revert L. induction a as [|seg a IH]; intros L; simpl; [done|].
  destruct (walk_component fs L seg); [done|apply IH].
Qed.

Lemma namei_snoc_inr (a : list string) seg L L' :
  namei fs (a ++ [seg]) L = inr L' →
  ∃ L1, namei fs a L = inr L1 ∧ walk_component fs L1 seg = inr L'.
Proof.
  rewrite namei_app. destruct (namei fs a L) as [e|L1]; [done|].
  simpl. destruct (walk_component fs L1 seg) eqn:E; [done|].
  intros [= <-]. eauto.
Qed.

Lemma out_ok_dotdot (out : list string) : out_ok false out → out_ok false (".." :: out).
Proof. intros Hout. constructor; [|done]. by repeat split. Qed.

Lemma out_ok_backtrack (r : bool) (out : list string) :
  out_ok r out → out_ok r (backtrack r out).
Proof.
  intros Hout. unfold backtrack. destruct out as [|c out'].
  - destruct r; [constructor|]. by apply out_ok_dotdot.
  - destruct (decide (c = "..")) as [->|Hc].
    + destruct r; [done|]. by apply out_ok_dotdot.
    + by apply Forall_cons in Hout as [_ ?].
Qed.

Lemma clean_segs_out_ok (r : bool) (segs out : list string) :
  out_ok r out → out_ok r (clean_segs r segs out).
Proof.
  revert out. induction segs as [|seg segs IH]; intros out Hout; simpl; [done|].
  destruct (decide (seg = EmptyString ∨ seg = ".")) as [|Hn]; [by apply IH|].
  destruct (decide (seg = "..")) as [|Hd]; apply IH.
  - by apply out_ok_backtrack.
  - constructor; [|done]. naive_solver.
Qed.

Lemma clean_segs_Forall (P : string → Prop) (r : bool) (segs out : list string) :
  P ".." → Forall P segs → Forall P out → Forall P (clean_segs r segs out).
Proof.
  intros Hdd. revert out.
  induction segs as [|seg segs IH]; intros out Hsegs Hout; simpl; [done|].
  apply Forall_cons in Hsegs as [Hseg Hsegs].
  destruct (decide (seg = EmptyString ∨ seg = ".")); [by apply IH|].
  destruct (decide (seg = "..")); apply IH; try done.
  - unfold backtrack. destruct out as [|c out']; [destruct r; by repeat constructor|].
    pose proof Hout as Hout0. apply Forall_cons in Hout as [Hc Hout'].
    destruct (decide (c = "..")); [|done].
    destruct r; [done|]. by constructor.
  - by constructor.
Qed.

Lemma clean_segs_snoc (r : bool) (segs out : list string) n :
  normal n → clean_segs r (segs ++ [n]) out = n :: clean_segs r segs out.
Proof.
  intros (H1 & H2 & H3). revert out.
  induction segs as [|seg segs IH]; intros out; simpl.
  - destruct (decide (n = EmptyString ∨ n = ".")) as [[?|?]|_]; [done..|].
    by destruct (decide (n = "..")).
  - destruct (decide (seg = EmptyString ∨ seg = ".")); [apply IH|].
    destruct (decide (seg = "..")); apply IH.
Qed.

Lemma walk_component_dotdot L (es : list (string * tree)) :
  get_node fs (rev L) = Some (Dir es) → walk_component fs L ".." = inr (tail L).
Proof. intros HL. unfold walk_component. by rewrite HL. Qed.

Lemma out_ok_normal (r : bool) (out : list string) seg :
  ¬ (seg = EmptyString ∨ seg = ".") → seg ≠ ".." → out_ok r out → out_ok r (seg :: out).
Proof. intros Hn Hd Hout. constructor; [|done]. naive_solver. Qed.

(** [path.Clean] is lexical; on a path that resolves, the cleaned
    components resolve to the same location. *)
Lemma clean_segs_sound (r : bool) (segs out : list string) L0 L :
  out_ok r out →
  namei fs (rev out) [] = inr L0 →
  namei fs segs L0 = inr L →
  namei fs (rev (clean_segs r segs out)) [] = inr L.
Proof.
  revert out L0. induction segs as [|seg segs IH]; intros out L0 Hout H0 Hs.
  { simpl in *. congruence. }
  simpl in Hs. destruct (walk_component fs L0 seg) as [e|L1] eqn:Hw; [done|].
  destruct (walk_component_inr _ _ _ Hw) as [[es Hes] HL1]. simpl.
  destruct (decide (seg = EmptyString ∨ seg = ".")) as [|Hn].
  { subst L1. by apply (IH out L0). }
  destruct (decide (seg = "..")) as [->|Hd]; subst L1.
  - unfold backtrack. destruct out as [|c out'].
    + simpl in H0. injection H0 as <-.
      destruct r; [by apply (IH [] [])|].
      apply (IH [".."] (tail [])); [by apply out_ok_dotdot| |done].
      simpl. by rewrite (walk_component_dotdot [] es).
    + pose proof Hout as Hout0.
      apply Forall_cons in Hout as [(Hc1 & Hc2 & Hc3) Hout'].
      destruct (decide (c = "..")) as [->|Hc].
      * destruct r; [by destruct Hc3|].
        apply (IH (".." :: ".." :: out') (tail L0)); [by apply out_ok_dotdot| |done].
        change (rev (".." :: ".." :: out')) with (rev (".." :: out') ++ [".."]).
        rewrite namei_app, H0. simpl. by rewrite (walk_component_dotdot L0 es).
      * simpl in H0. apply namei_snoc_inr in H0 as (L1 & H1 & Hw1).
        apply walk_component_inr in Hw1 as [_ HL0].
        destruct (decide (c = EmptyString ∨ c = ".")) as [[?|?]|_]; [done..|].
        destruct (decide (c = "..")); [done|]. subst L0.
        by apply (IH out' L1).
  - apply (IH (seg :: out) (seg :: L0)); [by apply out_ok_normal| |done].
    simpl. by rewrite namei_app, H0; simpl; rewrite Hw.
Qed.
Lemma namei_root_dir (segs : list string) L :
  segs ≠ [] → namei fs segs [] = inr L → ∃ es, get_node fs [] = Some (Dir es).
Proof.
  destruct segs as [|seg segs]; [done|]. intros _. simpl.
  destruct (walk_component fs [] seg) eqn:Hw; [done|]. intros _.
  by destruct (walk_component_inr _ _ _ Hw) as [Hes _].
Qed.

Lemma namei_single L seg : namei fs [seg] L = walk_component fs L seg.
Proof. simpl. by destruct (walk_component fs L seg). Qed.

(** The path that [Join] builds for an entry resolves to the entry. *)
Lemma realpath_Join (p n : string) L :
  realpath fs p = inr L → valid_name n = true →
  realpath fs (path_Join p n) = walk_component fs L n.
Proof.
  unfold realpath. destruct (decide (p = EmptyString)) as [|Hp]; [done|]. intros HL Hn.
  apply valid_name_spec in Hn as [Hnorm Hsep].
  destruct (namei_root_dir _ _ (Split_nonempty p Separator) HL) as [res Hroot].
  unfold path_Join. destruct (decide (p = EmptyString)); [done|].
  destruct (decide (n = EmptyString)) as [->|_]; [by destruct Hnorm|].
  change ("/" +:+ n) with (String Separator n).
  unfold path_Clean.
  destruct (decide (p +:+ String Separator n = EmptyString)) as [E|_];
    [by apply app_nonempty in E|].
  rewrite rooted_app by done.
  change "/"%char with Separator.
  rewrite Split_app, (Split_no_separator n) by done.
  rewrite clean_segs_snoc by done.
  set (X := clean_segs (rooted p) (Split p Separator) []).
  assert (HX : namei fs (rev X) [] = inr L)
    by (by apply (clean_segs_sound (rooted p) _ [] []); [constructor|..]).
  assert (Hok : Forall (λ e, e ≠ EmptyString) (rev X ++ [n])).
  { apply Forall_app. split.
    - apply Forall_rev. eapply Forall_impl; [apply (clean_segs_out_ok (rooted p)); constructor|].
      by intros ? [? _].
    - repeat constructor. by destruct Hnorm. }
  assert (Hns : Forall (λ e, has_separator e = false) (rev X ++ [n])).
  { apply Forall_app. split; [|by repeat constructor].
    apply Forall_rev, clean_segs_Forall; [done|apply Split_pieces|constructor]. }
  assert (Hne : rev X ++ [n] ≠ []) by (by destruct (rev X)).
  assert (Hres : namei fs (rev X ++ [n]) [] = walk_component fs L n)
    by (by rewrite namei_app, HX, namei_single).
  cbn [rev]. destruct (rooted p).
  - rewrite !app_single.
    destruct (decide (String Separator (Joinsep (rev X ++ [n])) = EmptyString)); [done|].
    rewrite Split_rooted, Split_Joinsep by done.
    cbn [namei]. unfold walk_component at 1. cbn [rev]. rewrite Hroot.
    by destruct (decide (EmptyString = EmptyString ∨ EmptyString = ".")) as [_|[]]; [|left].
  - destruct (rev X ++ [n]) as [|e out] eqn:Eout; [done|]. rewrite <-Eout in *.
    destruct (decide (Joinsep (rev X ++ [n]) = EmptyString)) as [E|_];
      [by apply Joinsep_nonempty in E|].
    by rewrite Split_Joinsep.
Qed.
End resolution.

(** ** The classifier *)

Section classifier.
Variable fs : tree.
Implicit Types (L : list string) (p : string).

Lemma get_node_tail L (t : tree) :
  get_node fs (rev L) = Some t → ∃ t', get_node fs (rev (tail L)) = Some t'.
Proof.
  destruct L as [|n L]; [eauto|]. simpl. rewrite get_node_app.
  destruct (get_node fs (rev L)); [eauto|done].
Qed.

Lemma walk_component_valid L seg L' :
  walk_component fs L seg = inr L' → ∃ t, get_node fs (rev L') = Some t.
Proof.
  intros Hw. destruct (walk_component_inr _ _ _ _ Hw) as [[es Hes] HL'].
  destruct (decide (seg = EmptyString ∨ seg = ".")) as [|Hn]; [subst L'; eauto|].
  destruct (decide (seg = "..")) as [|Hd];
    [subst L'; eapply get_node_tail; exact Hes|].
  assert (Hnorm : normal seg) by (unfold normal; tauto).
  subst L'. rewrite (walk_component_normal fs L seg es Hnorm Hes) in Hw.
  destruct (lookup_entry seg es) as [c|] eqn:El; [|done].
  exists c. simpl. by rewrite (get_node_snoc _ _ _ es).
Qed.

Lemma namei_valid (segs : list string) L L' (t : tree) :
  get_node fs (rev L) = Some t → namei fs segs L = inr L' →
  ∃ t', get_node fs (rev L') = Some t'.
Proof.
  revert L t. induction segs as [|seg segs IH]; intros L t Ht; simpl.
  - intros [= <-]. eauto.
  - destruct (walk_component fs L seg) as [|L1] eqn:Hw; [done|].
    destruct (walk_component_valid _ _ _ Hw) as [t1 Ht1]. by apply (IH L1 t1).
Qed.

Lemma realpath_valid p L :
  realpath fs p = inr L → ∃ t, get_node fs (rev L) = Some t.
Proof.
  unfold realpath. destruct (decide (p = EmptyString)); [done|].
  by apply (namei_valid _ [] L fs).
Qed.

Lemma node_at_realpath p (t : tree) :
  node_at fs p = Some t ↔ ∃ L, realpath fs p = inr L ∧ get_node fs (rev L) = Some t.
Proof.
  unfold node_at. destruct (realpath fs p) as [e|L]; split.
  - done.
  - by intros (? & ? & ?).
  - eauto.
  - by intros (? & [= <-] & ?).
Qed.

(** What [isDir] and [isGogoRepo] return, case by case on the result of
    the resolution of the path. *)
Lemma isDir_spec p :
  isDir fs p
  = match realpath fs p with
    | inr L => Ok (from_option (λ t, IsDir (info_of t)) false (get_node fs (rev L)))
    | inl ENOENT => Ok false
    | inl ENOTDIR => Panic NilDereference
    end.
Proof.
  unfold isDir, os_Stat. destruct (realpath fs p) as [[|]|L]; [done..|].
  by destruct (get_node fs (rev L)).
Qed.

Lemma isGitRoot_spec p L (es : list (string * tree)) :
  realpath fs p = inr L → get_node fs (rev L) = Some (Dir es) →
  isGitRoot fs p = Ok (is_repo_node (Dir es)).
Proof.
  intros HL Hes. unfold isGitRoot. rewrite isDir_spec.
  rewrite (realpath_Join fs p ".git" L HL) by done.
  rewrite (walk_component_normal fs L ".git" es) by done.
  simpl. destruct (lookup_entry ".git" es) as [c|] eqn:El; [|done].
  cbn [rev]. rewrite (get_node_snoc _ _ _ es Hes), El. by destruct c.
Qed.

Lemma isGogoRepo_spec p :
  isGogoRepo fs p
  = match realpath fs p with
    | inr L => Ok (from_option is_repo_node false (get_node fs (rev L)))
    | inl ENOENT => Ok false
    | inl ENOTDIR => Panic NilDereference
    end.
Proof.
  unfold isGogoRepo. rewrite isDir_spec.
  destruct (realpath fs p) as [[|]|L] eqn:HL; [done..|].
  destruct (get_node fs (rev L)) as [[|es]|] eqn:Ht; [done| |done].
  simpl. by apply (isGitRoot_spec p L).
Qed.

Lemma isGogoRepo_node p (t : tree) :
  node_at fs p = Some t → isGogoRepo fs p = Ok (is_repo_node t).
Proof.
  intros (L & HL & Ht)%node_at_realpath. by rewrite isGogoRepo_spec, HL, Ht.
Qed.

(** The check is true exactly on the directories that hold a directory
    named [.git]. *)
Lemma isGogoRepo_true_iff p :
  isGogoRepo fs p = Ok true
  ↔ ∃ es gs, node_at fs p = Some (Dir es) ∧ lookup_entry ".git" es = Some (Dir gs).
Proof.
  rewrite isGogoRepo_spec. unfold node_at.
  destruct (realpath fs p) as [[|]|L]; [by split; [|intros (?&?&?&?)]..|].
  destruct (get_node fs (rev L)) as [[|es]|]; simpl;
    [by split; [|intros (?&?&?&?)]| |by split; [|intros (?&?&?&?)]].
  split.
  - intros [= H]. destruct (lookup_entry ".git" es) as [[|gs]|] eqn:E; [done| |done].
    by exists es, gs.
  - intros (es' & gs & [= <-] & ->). done.
Qed.

(** It is false, without a panic, on a path of which the last component
    is missing from an existing directory, and on a path that names a
    file. *)
Lemma isGogoRepo_false p :
  realpath fs p = inl ENOENT ∨ node_at fs p = Some File →
  isGogoRepo fs p = Ok false.
Proof.
  rewrite isGogoRepo_spec. unfold node_at. intros [->|H]; [done|].
  destruct (realpath fs p); [done|]. by rewrite H.
Qed.
End classifier.

(** C8. [isGogoRepo] is true exactly on a directory that holds a [.git]
    directory and false on a file and on a path whose last component is
    missing ([isGogoRepo_true_iff], [isGogoRepo_false]). On a path that
    leads through a file it does not return false: such a path does not
    exist, [os.Stat] fails with [ENOTDIR], which [os.IsNotExist] does not
    recognise, and [isDir] calls [IsDir()] on the nil [fileInfo]. With
    [GOPATH] set to a file [main] panics this way. *)
Theorem isGogoRepo_panics_below_a_file :
  node_at scenario "/ws/src/github.com/alice/proj1/main.go/src" = None
  ∧ os_Stat scenario "/ws/src/github.com/alice/proj1/main.go/src" = (None, Some ENOTDIR)
  ∧ isGogoRepo scenario "/ws/src/github.com/alice/proj1/main.go/src" = Panic NilDereference
  ∧ ∀ fuel : nat,
      main scenario "/ws/src/github.com/alice/proj1/main.go" fuel
      = Some (Panic NilDereference).
Proof. repeat split. Qed.

(** ** The walk on a well-formed tree *)

Section wf.
Implicit Types (t c : tree) (es : list (string * tree)) (n : string).

Lemma wf_tree_Dir es :
  wf_tree (Dir es) = true →
  Forall (λ n, valid_name n = true) es.*1
  ∧ NoDup es.*1
  ∧ merge_sort String.le es.*1 = es.*1
  ∧ Forall (λ e, wf_tree e.2 = true) es.
Proof.
  simpl. rewrite !andb_true_iff, !bool_decide_eq_true.
  intros [[[H1 H2] H3] H4]. repeat split; try done.
  - apply Forall_forall. intros n Hn. rewrite forallb_forall in H1.
    by apply H1, list_elem_of_In.
  - apply Forall_forall. intros e He. rewrite forallb_forall in H4.
    by apply H4, list_elem_of_In.
Qed.

Lemma lookup_entry_elem n c es : lookup_entry n es = Some c → (n, c) ∈ es.
Proof.
  induction es as [|[n' c'] es IH]; simpl; [done|].
  destruct (decide (n' = n)) as [->|_].
  - intros [= ->]. by left.
  - intros H. right. by apply IH.
Qed.

Lemma lookup_entry_NoDup n c es :
  NoDup es.*1 → (n, c) ∈ es → lookup_entry n es = Some c.
Proof.
  induction es as [|[n' c'] es IH]; simpl; [by intros _ ?%elem_of_nil|].
  intros [Hn' Hnd]%NoDup_cons [[= -> ->]|Hin]%elem_of_cons.
  - by destruct (decide (n' = n')).
  - destruct (decide (n' = n)) as [->|_]; [|by apply IH].
    destruct Hn'. apply list_elem_of_fmap. by exists (n, c).
Qed.

Lemma wf_tree_child es n c :
  wf_tree (Dir es) = true → (n, c) ∈ es →
  valid_name n = true ∧ wf_tree c = true ∧ lookup_entry n es = Some c.
Proof.
  intros (Hv & Hnd & _ & Hwf)%wf_tree_Dir Hin. repeat split.
  - rewrite Forall_forall in Hv. apply Hv, list_elem_of_fmap. by exists (n, c).
  - rewrite Forall_forall in Hwf. by apply (Hwf (n, c)).
  - by apply lookup_entry_NoDup.
Qed.

Lemma wf_tree_get_node t (names : list string) t' :
  wf_tree t = true → get_node t names = Some t' → wf_tree t' = true.
Proof.
  revert t. induction names as [|n names IH]; intros t Hwf; simpl.
  - by intros [= <-].
  - destruct t as [|es]; [done|].
    destruct (lookup_entry n es) as [c|] eqn:El; [|done].
    apply IH. by apply lookup_entry_elem, (wf_tree_child es) in El as (_ & ? & _).
Qed.

Lemma height_child es (e : string * tree) :
  e ∈ es → (height e.2 < height (Dir es))%nat.
Proof.
  simpl. induction es as [|e' es IH]; [by intros ?%elem_of_nil|].
  intros [->|Hin]%elem_of_cons; simpl; [lia|]. specialize (IH Hin). lia.
Qed.

Lemma is_repo_node_Dir t : is_repo_node t = true → IsDir (info_of t) = true.
Proof. by destruct t. Qed.

Lemma parse_all_app (a b : list string) (P : Projects) :
  parse_all (a ++ b) P = P' ← parse_all a P; parse_all b P'.
Proof.
  revert P. induction a as [|p a IH]; intros P; simpl; [done|].
  destruct (parsegoRepo p P) as [P1|x]; simpl; [apply IH|done].
Qed.
End wf.

Section walk_visit.
Variable fs : tree.
Hypothesis fs_wf : wf_tree fs = true.
Implicit Types (t c : tree) (es : list (string * tree)) (n p : string)
  (L : list string) (P : Projects) (tr : list string).

(** The entry of a visited directory is found again under its path. *)
Lemma Lstat_child p L es n c :
  realpath fs p = inr L → get_node fs (rev L) = Some (Dir es) →
  valid_name n = true → lookup_entry n es = Some c →
  realpath fs (filepath_Join p n) = inr (n :: L)
  ∧ get_node fs (rev (n :: L)) = Some c.
Proof.
  intros HL Hes Hn Hc. split.
  - unfold filepath_Join. rewrite (realpath_Join fs p n L HL Hn).
    apply valid_name_spec in Hn as [Hn _].
    by rewrite (walk_component_normal fs L n es Hn Hes), Hc.
  - simpl. by rewrite (get_node_snoc _ _ _ es Hes).
Qed.

Lemma call_visit p t f err P tr :
  node_at fs p = Some t →
  call (visit fs) p f err (P, tr)
  = if is_repo_node t then finish (Some SkipDir) (tr ++ [p]) (parsegoRepo p P)
    else Ok (None, (P, tr ++ [p])).
Proof.
  intros Ht. unfold call, visit. rewrite (isGogoRepo_node fs p t Ht). simpl.
  destruct (is_repo_node t); [|done]. by destruct (parsegoRepo p P).
Qed.

(** With fuel above the height of the node, [walk] with [visit] calls
    [visit] on the paths [visited] and parses the paths [found]. *)
Lemma walk_visit t :
  ∀ (fuel : nat) p L P tr,
    realpath fs p = inr L → get_node fs (rev L) = Some t →
    (height t < fuel)%nat →
    walk fs (visit fs) fuel p (info_of t) (P, tr)
    = Some (finish (if is_repo_node t then Some SkipDir else None)
                   (tr ++ visited p t) (parse_all (found p t) P)).
Proof.
  induction t as [|es IH] using tree_ind; intros fuel p L P tr HL Ht Hfuel;
    (destruct fuel as [|fuel]; [lia|]).
  - simpl. f_equal. by apply (call_visit p File), node_at_realpath; eauto.
  - assert (Hnode : node_at fs p = Some (Dir es)) by (apply node_at_realpath; eauto).
    pose proof (wf_tree_get_node fs _ _ fs_wf Ht) as Hwf.
    destruct (wf_tree_Dir es Hwf) as (_ & _ & Hsort & _).
    cbn [walk info_of IsDir negb]. unfold readDirNames. rewrite HL, Ht, Hsort.
    rewrite (call_visit p (Dir es) _ _ P tr Hnode).
    cbn [visited found]. destruct (is_repo_node (Dir es)) eqn:Hrepo.
    { cbn [parse_all]. destruct (parsegoRepo p P); reflexivity. }
    cbn [bool_decide orb].
    replace (bool_decide (is_Some (@None Errno)) || bool_decide (is_Some (@None error)))
      with false by (symmetry; apply orb_false_iff; split; apply bool_decide_eq_false;
                     by intros [? ?]).
    rewrite (cons_middle p tr (flat_map _ es)), app_assoc.
    generalize (tr ++ [p]). intros tr0.
    enough (Hloop : ∀ es2 P tr, (∀ e, e ∈ es2 → e ∈ es) →
              walk_names fs (visit fs) (walk fs (visit fs) fuel) p es2.*1 (P, tr)
              = Some (finish None
                  (tr ++ flat_map (λ e, visited (filepath_Join p e.1) e.2) es2)
                  (parse_all (flat_map (λ e, found (filepath_Join p e.1) e.2) es2) P)))
      by (apply Hloop; auto).
    clear P tr tr0.
    induction es2 as [|[n c] es2 IH2]; intros P tr Hsub.
    { simpl. by rewrite app_nil_r. }
    assert (Hin : (n, c) ∈ es) by (apply Hsub; by left).
    destruct (wf_tree_child es n c Hwf Hin) as (Hn & Hc & Hlook).
    destruct (Lstat_child p L es n c HL Ht Hn Hlook) as [HLc Htc].
    rewrite Forall_forall in IH.
    pose proof (IH (n, c) Hin fuel (filepath_Join p n) (n :: L)) as IHc.
    pose proof (height_child es (n, c) Hin) as Hh. cbn [fst snd] in IHc, Hh.
    cbn [fmap list_fmap walk_names fst snd]. unfold os_Lstat, os_Stat.
    rewrite HLc, Htc. cbn [fst snd].
    rewrite IHc by (try done; lia).
    cbn [flat_map fst snd]. rewrite parse_all_app.
    destruct (parse_all (found (filepath_Join p n) c) P) as [P1|x]; [|done].
    cbn [finish mbind result_bind].
    assert (Hrest : ∀ e, e ∈ es2 → e ∈ es) by (intros e He; apply Hsub; by right).
    specialize (IH2 P1 (tr ++ visited (filepath_Join p n) c) Hrest).
    rewrite <-app_assoc in IH2.
    destruct (is_repo_node c) eqn:Hrc; [|exact IH2].
    rewrite (is_repo_node_Dir c Hrc).
    destruct (decide (SkipDir = SkipDir)) as [_|?]; [|done].
    rewrite bool_decide_eq_true_2 by done. exact IH2.
Qed.
End walk_visit.

(** More fuel never changes the result of a walk. *)
Section fuel.
Context {St : Type}.
Variable fs : tree.
Variable walkFn :
  string → option FileInfo → option error → St → result (option error * St).

Lemma walk_names_mono
    (rec rec' : string → FileInfo → St * list string →
                option (result (option error * (St * list string)))) :
  (∀ p i st r, rec p i st = Some r → rec' p i st = Some r) →
  ∀ p names st r,
    walk_names fs walkFn rec p names st = Some r →
    walk_names fs walkFn rec' p names st = Some r.
Proof.
  intros Hrec p names. induction names as [|name names IH]; intros st r; [done|].
  cbn [walk_names].
  destruct (os_Lstat fs (filepath_Join p name)) as [fileInfo [e|]].
  - destruct (call walkFn (filepath_Join p name) fileInfo (Some (PathError e)) st)
      as [[[e'|] st']|x]; [|apply IH|done].
    destruct (decide (e' = SkipDir)); [apply IH|done].
  - destruct fileInfo as [fi|]; [|done].
    destruct (rec (filepath_Join p name) fi st) as [r1|] eqn:Hr; [|done].
    rewrite (Hrec _ _ _ _ Hr). destruct r1 as [[[e'|] st']|x]; [|apply IH|done].
    destruct (negb (IsDir fi) || negb (bool_decide (e' = SkipDir))); [done|apply IH].
Qed.

Lemma walk_mono (fuel fuel' : nat) p info st r :
  (fuel ≤ fuel')%nat →
  walk fs walkFn fuel p info st = Some r →
  walk fs walkFn fuel' p info st = Some r.
Proof.
  revert fuel' p info st r.
  induction fuel as [|fuel IH]; intros fuel' p info st r Hle; [done|].
  destruct fuel' as [|fuel']; [lia|]. cbn [walk].
  destruct (negb (IsDir info)); [done|].
  destruct (readDirNames fs p) as [names err].
  destruct (call walkFn p (Some info) (PathError <$> err) st) as [[err1 st1]|x]; [|done].
  destruct (bool_decide (is_Some err) || bool_decide (is_Some err1)); [done|].
  apply walk_names_mono. intros p' i st' r'. apply IH. lia.
Qed.

Lemma filepath_Walk_mono (fuel fuel' : nat) root st r :
  (fuel ≤ fuel')%nat →
  filepath_Walk fs walkFn fuel root st = Some r →
  filepath_Walk fs walkFn fuel' root st = Some r.
Proof.
  intros Hle. unfold filepath_Walk.
  destruct (os_Lstat fs root) as [info [e|]]; [done|].
  destruct info as [fi|]; [|done].
  destruct (walk fs walkFn fuel root fi st) as [r1|] eqn:Hw; [|done].
  by rewrite (walk_mono fuel fuel' _ _ _ _ Hle Hw).
Qed.
End fuel.

Section Walk_visit.
Variable fs : tree.
Hypothesis fs_wf : wf_tree fs = true.

Lemma filepath_Walk_enough_fuel (root : string) (P : Projects) (tr : list string) :
  ∃ fuel0 : nat, ∀ fuel : nat, (fuel0 ≤ fuel)%nat →
    filepath_Walk fs (visit fs) fuel root (P, tr) = Some (Walk_result fs root P tr).
Proof.
  unfold Walk_result, filepath_Walk, os_Lstat, os_Stat.
  destruct (realpath fs root) as [[|]|L] eqn:HL.
  - exists O. intros fuel _. unfold call, visit.
    by rewrite isGogoRepo_spec, HL.
  - exists O. intros fuel _. unfold call, visit.
    by rewrite isGogoRepo_spec, HL.
  - destruct (get_node fs (rev L)) as [t|] eqn:Ht.
    + exists (S (height t)). intros fuel Hfuel.
      rewrite (walk_visit fs fs_wf t fuel root L P tr HL Ht) by lia.
      destruct (parse_all (found root t) P); [|done].
      by destruct (is_repo_node t).
    + exists O. intros fuel _. unfold call, visit.
      by rewrite isGogoRepo_spec, HL, Ht.
Qed.

Lemma filepath_Walk_result (fuel : nat) root P tr r :
  filepath_Walk fs (visit fs) fuel root (P, tr) = Some r →
  r = Walk_result fs root P tr.
Proof.
  intros Hr. destruct (filepath_Walk_enough_fuel root P tr) as [fuel0 H0].
  pose proof (H0 (Nat.max fuel fuel0) ltac:(lia)) as H1.
  rewrite (filepath_Walk_mono fs (visit fs) fuel (Nat.max fuel fuel0) root _ r) in H1;
    [congruence|lia|done].
Qed.
End Walk_visit.

(** ** What a walk visits *)

Section lists.
Context {A B C : Type}.

Lemma elem_of_flat_map (g : A → list B) (l : list A) (y : B) :
  y ∈ flat_map g l ↔ ∃ a, a ∈ l ∧ y ∈ g a.
Proof.
  rewrite list_elem_of_In, in_flat_map. split.
  - intros (a & Ha & Hy). exists a. by rewrite !list_elem_of_In.
  - intros (a & Ha & Hy). exists a. by rewrite <-!list_elem_of_In.
Qed.

Lemma fmap_flat_map_ext (f : B → C) (g1 : A → list B) (g2 : A → list C)
    (l : list A) :
  (∀ a, a ∈ l → f <$> g1 a = g2 a) → f <$> flat_map g1 l = flat_map g2 l.
Proof.
  induction l as [|a l IH]; intros Hext; simpl; [done|].
  rewrite fmap_app, Hext, IH; [done| |by left].
  intros a' Ha'. apply Hext. by right.
Qed.

Lemma app_cons_inj (a b : list A) (m n : A) (l : list A) :
  a ++ m :: l = b ++ n :: l → a = b ∧ m = n.
Proof.
  rewrite (cons_middle m a l), (cons_middle n b l), !app_assoc.
  intros H%List.app_inv_tail. by apply List.app_inj_tail.
Qed.

Lemma app_self_nil (k l : list A) : l = k ++ l → k = [].
Proof.
  intros H%(f_equal length). rewrite length_app in H.
  destruct k; [done|]. simpl in H. lia.
Qed.
End lists.

Section visited.
Variable fs : tree.
Hypothesis fs_wf : wf_tree fs = true.
Implicit Types (t c : tree) (es : list (string * tree)) (n p : string)
  (L : list string).


(** The paths visited name the locations of [visited_locs]. *)
Lemma visited_realpath t :
  ∀ p L, realpath fs p = inr L → get_node fs (rev L) = Some t →
    realpath fs <$> visited p t = inr <$> visited_locs L t.
Proof.
  induction t as [|es IH] using tree_ind; intros p L HL Ht.
  - simpl. by rewrite HL.
  - pose proof (wf_tree_get_node fs _ _ fs_wf Ht) as Hwf.
    cbn [visited visited_locs]. rewrite !fmap_cons, HL. f_equal.
    destruct (is_repo_node (Dir es)); [done|].
    rewrite (fmap_flat_map_ext _ _ (λ e, inr <$> visited_locs (e.1 :: L) e.2)).
    + symmetry. by apply fmap_flat_map_ext.
    + intros [n c] Hin. cbn [fst snd].
      destruct (wf_tree_child es n c Hwf Hin) as (Hn & _ & Hl).
      destruct (Lstat_child fs p L es n c HL Ht Hn Hl) as [HLc Htc].
      rewrite Forall_forall in IH. by apply (IH (n, c) Hin).
Qed.

Lemma visited_locs_suffix t : ∀ L x, x ∈ visited_locs L t → ∃ k, x = k ++ L.
Proof.
  induction t as [|es IH] using tree_ind; intros L x; cbn [visited_locs].
  - intros ->%list_elem_of_singleton. by exists [].
  - intros [->|Hx]%elem_of_cons; [by exists []|].
    destruct (is_repo_node (Dir es)); [by apply elem_of_nil in Hx|].
    apply elem_of_flat_map in Hx as ([n c] & Hin & Hx).
    rewrite Forall_forall in IH.
    destruct (IH (n, c) Hin _ _ Hx) as [k ->].
    exists (k ++ [n]). by rewrite <-app_assoc.
Qed.

(** No location is visited twice. *)
Lemma visited_locs_NoDup t : ∀ L, wf_tree t = true → NoDup (visited_locs L t).
Proof.
  induction t as [|es IH] using tree_ind; intros L Hwf; cbn [visited_locs].
  - apply NoDup_singleton.
  - destruct (is_repo_node (Dir es)); [apply NoDup_singleton|].
    destruct (wf_tree_Dir es Hwf) as (_ & Hnd & _ & Hwfs).
    rewrite Forall_forall in IH. rewrite Forall_forall in Hwfs.
    apply NoDup_cons. split.
    + intros ([n c] & Hin & Hx)%elem_of_flat_map. cbn [fst snd] in Hx.
      apply visited_locs_suffix in Hx as [k Hk].
      rewrite (cons_middle n k L), app_assoc in Hk.
      apply app_self_nil in Hk. by destruct k.
    + clear Hwf. induction es as [|[n c] es IHes]; [constructor|].
      apply NoDup_cons in Hnd as [Hn Hnd]. cbn [flat_map fst snd].
      apply NoDup_app. repeat split.
      * apply (IH (n, c)); [by left|]. apply (Hwfs (n, c)). by left.
      * intros x Hx ([n' c'] & Hin & Hx')%elem_of_flat_map.
        cbn [fst snd] in Hx'.
        apply visited_locs_suffix in Hx as [k Hk].
        apply visited_locs_suffix in Hx' as [k' Hk']. subst x.
        apply app_cons_inj in Hk' as [_ ->].
        apply Hn, list_elem_of_fmap. by exists (n', c').
      * apply IHes; [|done|].
        -- intros e He. apply IH. by right.
        -- intros e He. apply Hwfs. by right.
Qed.

Lemma visited_NoDup p L t :
  realpath fs p = inr L → get_node fs (rev L) = Some t →
  NoDup (realpath fs <$> visited p t).
Proof.
  intros HL Ht. rewrite (visited_realpath t p L HL Ht).
  apply (NoDup_fmap_2 _), visited_locs_NoDup.
  by apply (wf_tree_get_node fs (rev L)).
Qed.

End visited.

Section visited_paths.
Variable fs : tree.
Hypothesis fs_wf : wf_tree fs = true.
Implicit Types (t c : tree) (es : list (string * tree)) (n p q : string)
  (L : list string).

(** A visited path names a node at or below the start, and the walk of
    that node is part of the walk. *)
Lemma visited_inside t :
  ∀ p L q, realpath fs p = inr L → get_node fs (rev L) = Some t →
    q ∈ visited p t →
    ∃ Lq tq k, realpath fs q = inr Lq ∧ get_node fs (rev Lq) = Some tq
      ∧ Lq = k ++ L
      ∧ (∀ x, x ∈ visited q tq → x ∈ visited p t)
      ∧ (∀ x, x ∈ found q tq → x ∈ found p t).
Proof.
  induction t as [|es IH] using tree_ind; intros p L q HL Ht Hq.
  - apply list_elem_of_singleton in Hq as ->. by exists L, File, [].
  - cbn [visited] in Hq. apply elem_of_cons in Hq as [->|Hq];
      [by exists L, (Dir es), []|].
    destruct (is_repo_node (Dir es)) eqn:Hrepo; [by apply elem_of_nil in Hq|].
    apply elem_of_flat_map in Hq as ([n c] & Hin & Hq). cbn [fst snd] in Hq.
    pose proof (wf_tree_get_node fs _ _ fs_wf Ht) as Hwf.
    destruct (wf_tree_child es n c Hwf Hin) as (Hn & _ & Hl).
    destruct (Lstat_child fs p L es n c HL Ht Hn Hl) as [HLc Htc].
    rewrite Forall_forall in IH.
    destruct (IH (n, c) Hin _ _ q HLc Htc Hq)
      as (Lq & tq & k & HLq & Htq & Hk & Hv & Hf).
    exists Lq, tq, (k ++ [n]). repeat split; try done.
    + by rewrite <-app_assoc.
    + intros x Hx. cbn [visited]. rewrite Hrepo. right.
      apply elem_of_flat_map. exists (n, c). split; [done|]. by apply Hv.
    + intros x Hx. cbn [found]. rewrite Hrepo.
      apply elem_of_flat_map. exists (n, c). split; [done|]. by apply Hf.
Qed.

Lemma visited_head p t : p ∈ visited p t.
Proof. destruct t; by left. Qed.

Lemma visited_sublist t : ∀ p, visited p t `sublist_of` all_paths p t.
Proof.
  induction t as [|es IH] using tree_ind; intros p; cbn [visited all_paths].
  - done.
  - apply sublist_skip. destruct (is_repo_node (Dir es)); [apply sublist_nil_l|].
    induction es as [|[n c] es IHes]; [done|].
    apply Forall_cons in IH as [IHc IH]. cbn [flat_map fst snd].
    apply sublist_app; [apply IHc|by apply IHes].
Qed.

Lemma parsegoRepo_record q (Q Q' : Projects) :
  parsegoRepo q Q = Ok Q' →
  ∃ r, ∀ Q2, parsegoRepo q Q2 = Ok (AddRepo Q2 r).
Proof.
  unfold parsegoRepo.
  destruct (index _ (_ - 1)) as [source|]; [|done].
  destruct (index _ (_ - 2)) as [owner|]; [|done].
  destruct (index _ (_ - 3)) as [repo|]; [|done].
  intros _. by eexists.
Qed.
End visited_paths.

(** ** Claims on the walk *)

Lemma Walk_result_Ok (fs : tree) (root : string) (P0 P : Projects)
    (e : option error) (tr : list string) :
  Walk_result fs root P0 [] = Ok (e, (P, tr)) →
  (∃ L t, realpath fs root = inr L ∧ get_node fs (rev L) = Some t
          ∧ parse_all (found root t) P0 = Ok P ∧ tr = visited root t)
  ∨ (realpath fs root = inl ENOENT ∧ P = P0 ∧ tr = [root]).
Proof.
  unfold Walk_result. destruct (realpath fs root) as [[|]|L] eqn:HL.
  - intros [= <- <- <-]. by right.
  - done.
  - destruct (realpath_valid fs root L HL) as [t Ht]. rewrite Ht.
    destruct (parse_all (found root t) P0) as [P1|] eqn:HP; [|done].
    intros [= <- <- <-]. left. by exists L, t.
Qed.




(** C9. On every well-formed finite tree [filepath.Walk] with [visit]
    returns once the fuel covers the depth of the tree, with a result or
    with the panic of [parsegoRepo] or [isDir]; when it returns a result no
    path, and no node, is visited twice, and the paths visited are a
    sublist of the paths of all the nodes below the root: skipping the
    directories of repository roots only leaves nodes out. [main] returns
    in the same way for every value of [GOPATH]. *)
Theorem Walk_terminates (fs : tree) (root : string) (P0 : Projects) :
  wf_tree fs = true →
  (∃ (fuel0 : nat) (r : result (option error * (Projects * list string))),
     (∀ fuel : nat, (fuel0 ≤ fuel)%nat →
        filepath_Walk fs (visit fs) fuel root (P0, []) = Some r)
     ∧ ∀ e P tr, r = Ok (e, (P, tr)) →
         NoDup tr ∧ NoDup (realpath fs <$> tr)
         ∧ tr `sublist_of` all_paths_from fs root)
  ∧ (∀ gopath : string, ∃ (fuel0 : nat) (r : result (Projects * list string)),
       ∀ fuel : nat, (fuel0 ≤ fuel)%nat → main fs gopath fuel = Some r).
Proof.
  intros Hwf. split.
  - destruct (filepath_Walk_enough_fuel fs Hwf root P0 []) as [fuel0 H0].
    exists fuel0, (Walk_result fs root P0 []). split; [exact H0|].
    intros e P tr Hr.
    apply Walk_result_Ok in Hr as [(L & t & HL & Ht & HP & ->)|(HL & -> & ->)].
    + pose proof (visited_NoDup fs Hwf root L t HL Ht) as Hnd.
      repeat split; [by apply NoDup_fmap_1 in Hnd|done|].
      unfold all_paths_from, node_at. rewrite HL, Ht. apply visited_sublist.
    + repeat split; [apply NoDup_singleton..|].
      unfold all_paths_from, node_at. by rewrite HL.
  - intros gopath. unfold main. destruct (decide (gopath = EmptyString)); [by exists O, (Ok (NewProjects, []))|].
    destruct (filepath_Walk_enough_fuel fs Hwf (path_Join gopath "src") NewProjects [])
      as [fuel0 H0].
    exists fuel0,
      (match Walk_result fs (path_Join gopath "src") NewProjects [] with
       | Ok (_, st) => Ok st
       | Panic x => Panic x
       end).
    intros fuel Hfuel. rewrite (H0 fuel Hfuel).
    by destruct (Walk_result fs (path_Join gopath "src") NewProjects []) as [[? ?]|].
Qed.

Lemma Walk_terminates_witness :
  (∃ (fuel0 : nat) (r : result (option error * (Projects * list string))),
     (∀ fuel : nat, (fuel0 ≤ fuel)%nat →
        filepath_Walk scenario (visit scenario) fuel "/ws/src" (NewProjects, []) = Some r)
     ∧ ∀ e P tr, r = Ok (e, (P, tr)) →
         NoDup tr ∧ NoDup (realpath scenario <$> tr)
         ∧ tr `sublist_of` all_paths_from scenario "/ws/src")
  ∧ (∀ gopath : string, ∃ (fuel0 : nat) (r : result (Projects * list string)),
       ∀ fuel : nat, (fuel0 ≤ fuel)%nat → main scenario gopath fuel = Some r).
Proof.
  apply (Walk_terminates scenario "/ws/src" NewProjects). vm_compute; reflexivity.
Defined.

(** C1. The walk of the scenario, from [GOPATH=/ws]: two repositories are
    stored and nothing below [proj1] is visited, as the claim says, and
    [Owners()] is alice and bob; but [parsegoRepo] stores the last segment
    of the path as the source and the third last as the repo, so that
    [Sources()] is proj1 and proj2, not github.com. *)
Theorem scenario_walk :
  main scenario "/ws" 10 = Some (Ok (run scenario_repos, scenario_trace))
  ∧ length (Projects_repos (run scenario_repos)) = 2%nat
  ∧ "/ws/src/github.com/alice/proj1/vendor" ∉ scenario_trace
  ∧ "/ws/src/github.com/alice/proj1/vendor/lib" ∉ scenario_trace
  ∧ Sources (run scenario_repos) = ["proj1"; "proj2"]
  ∧ Owners (run scenario_repos) = ["alice"; "bob"]
  ∧ "github.com" ∉ Sources (run scenario_repos).
Proof.
  assert (HS : Sources (run scenario_repos) = ["proj1"; "proj2"])
    by (vm_compute; reflexivity).
  repeat split; try (vm_compute; reflexivity); try exact HS.
  - intros H. by repeat (apply elem_of_cons in H as [H|H]; [discriminate H|]);
      apply elem_of_nil in H.
  - intros H. by repeat (apply elem_of_cons in H as [H|H]; [discriminate H|]);
      apply elem_of_nil in H.
  - rewrite HS. intros H.
    by repeat (apply elem_of_cons in H as [H|H]; [discriminate H|]);
      apply elem_of_nil in H.
Qed.

(** * Further properties of the code *)

(** ** The catalog *)

Section catalog_more.
Implicit Types (p : Projects) (r : goRepo) (s : sourcesList) (o : ownersList).

Lemma mapget_true_lookup `{Countable K} (m : gmap K bool) (k : K) :
  mapget m k = true → m !! k = Some true.
Proof. unfold mapget. by destruct (m !! k) as [[]|]. Qed.

Lemma addSource_insert s k :
  sourcesList_sources (addSource s k) = <[k := true]> (sourcesList_sources s).
Proof.
  unfold addSource; simpl.
  destruct (mapget (sourcesList_sources s) k) eqn:E; simpl; [|done].
  symmetry. by apply insert_id, mapget_true_lookup.
Qed.

Lemma addOwner_insert o k :
  ownersList_owners (addOwner o k) = <[k := true]> (ownersList_owners o).
Proof.
  unfold addOwner; simpl.
  destruct (mapget (ownersList_owners o) k) eqn:E; simpl; [|done].
  symmetry. by apply insert_id, mapget_true_lookup.
Qed.

Lemma sourcesList_eq s s' :
  sourcesList_sources s = sourcesList_sources s' →
  sourcesList_maxLength s = sourcesList_maxLength s' → s = s'.
Proof. destruct s, s'; simpl. by intros -> ->. Qed.

Lemma ownersList_eq o o' :
  ownersList_owners o = ownersList_owners o' →
  ownersList_maxLength o = ownersList_maxLength o' → o = o'.
Proof. destruct o, o'; simpl. by intros -> ->. Qed.

Lemma addSource_comm s a b :
  addSource (addSource s a) b = addSource (addSource s b) a.
Proof.
  apply sourcesList_eq.
  - rewrite !addSource_insert. destruct (decide (a = b)) as [->|Hne]; [done|].
    by apply insert_insert_ne.
  - rewrite !addSource_maxLength. lia.
Qed.

Lemma addOwner_comm o a b :
  addOwner (addOwner o a) b = addOwner (addOwner o b) a.
Proof.
  apply ownersList_eq.
  - rewrite !addOwner_insert. destruct (decide (a = b)) as [->|Hne]; [done|].
    by apply insert_insert_ne.
  - rewrite !addOwner_maxLength. lia.
Qed.

Lemma foldl_addSource_perm (ks ks' : list sourceType) :
  ks ≡ₚ ks' → ∀ s, foldl addSource s ks = foldl addSource s ks'.
Proof.
  induction 1 as [|k ks ks' _ IH|a b ks|ks1 ks2 ks3 _ IH1 _ IH2]; intros s; simpl.
  - done.
  - apply IH.
  - by rewrite addSource_comm.
  - by rewrite IH1.
Qed.

Lemma foldl_addOwner_perm (ks ks' : list ownerType) :
  ks ≡ₚ ks' → ∀ o, foldl addOwner o ks = foldl addOwner o ks'.
Proof.
  induction 1 as [|k ks ks' _ IH|a b ks|ks1 ks2 ks3 _ IH1 _ IH2]; intros o; simpl.
  - done.
  - apply IH.
  - by rewrite addOwner_comm.
  - by rewrite IH1.
Qed.

(** The three parts of the catalog after a sequence of calls. *)
Lemma foldl_AddRepo_repos p rs :
  Projects_repos (foldl AddRepo p rs) = Projects_repos p ++ rs.
Proof.
  revert p. induction rs as [|r rs IH]; intros p; simpl; [by rewrite app_nil_r|].
  rewrite IH. simpl. by rewrite <-app_assoc.
Qed.

Lemma foldl_AddRepo_sources p rs :
  Projects_sources (foldl AddRepo p rs)
  = foldl addSource (Projects_sources p) (source_keys rs).
Proof. revert p. induction rs as [|r rs IH]; intros p; simpl; [done|apply IH]. Qed.

Lemma foldl_AddRepo_owners p rs :
  Projects_owners (foldl AddRepo p rs)
  = foldl addOwner (Projects_owners p) (owner_keys rs).
Proof. revert p. induction rs as [|r rs IH]; intros p; simpl; [done|apply IH]. Qed.

Lemma elem_of_Sources p x :
  x ∈ Sources p ↔ newSource x ∈ dom (sourcesList_sources (Projects_sources p)).
Proof.
  unfold Sources. rewrite list_elem_of_fmap, elem_of_dom. split.
  - intros (kb & -> & Hkb). destruct kb as [k b]. destruct k as [k].
    apply elem_of_map_to_list in Hkb. by exists b.
  - intros [b Hb]. exists (newSource x, b). split; [done|].
    by apply elem_of_map_to_list.
Qed.

Lemma elem_of_Sources_run (rs : list goRepo) x :
  x ∈ Sources (run rs) ↔ x ∈ goRepo_source <$> rs.
Proof.
  rewrite elem_of_Sources. unfold run. rewrite foldl_AddRepo_dom_sources.
  simpl. rewrite dom_empty_L, elem_of_union, elem_of_list_to_set, !list_elem_of_fmap.
  split.
  - intros [(r & [= ->] & Hr)|H]; [by exists r|by apply elem_of_empty in H].
  - intros (r & -> & Hr). left. by exists r.
Qed.

Lemma Sources_run_perm (rs : list goRepo) :
  Sources (run rs) ≡ₚ remove_dups (goRepo_source <$> rs).
Proof.
  apply NoDup_Permutation; [apply Sources_NoDup|apply NoDup_remove_dups|].
  intros x. by rewrite elem_of_Sources_run, elem_of_remove_dups.
Qed.

Lemma foldr_Zmax_ge (l : list Z) (a x : Z) : x ∈ l → x ≤ foldr Z.max a l.
Proof.
  induction l as [|y l IH]; [by intros ?%elem_of_nil|].
  intros [->|Hx]%elem_of_cons; simpl; [lia|]. specialize (IH Hx). lia.
Qed.

Lemma foldr_Zmax_attained (l : list Z) :
  l ≠ [] → Forall (λ x, 0 ≤ x) l → foldr Z.max 0 l ∈ l.
Proof.
  induction l as [|y l IH]; [done|]. intros _ [Hy Hl]%Forall_cons. simpl.
  destruct l as [|z l]; [simpl; replace (Z.max y 0) with y by lia; by left|].
  specialize (IH ltac:(done) Hl).
  destruct (Z.max_spec y (foldr Z.max 0 (z :: l))) as [[_ ->]|[_ ->]];
    [by right|by left].
Qed.

Lemma Owners_run_perm (rs : list goRepo) :
  Owners (run rs) ≡ₚ (remove_dups (pair_of <$> rs)).*1.
Proof.
  rewrite Owners_keys. unfold run. rewrite owner_keys_perm.
  by rewrite <-list_fmap_compose.
Qed.

Lemma elem_of_Owners_run (rs : list goRepo) x :
  x ∈ Owners (run rs) ↔ x ∈ goRepo_owner <$> rs.
Proof.
  rewrite Owners_run_perm, !list_elem_of_fmap. split.
  - intros (q & -> & Hq). rewrite elem_of_remove_dups in Hq.
    apply list_elem_of_fmap in Hq as (r & -> & Hr). by exists r.
  - intros (r & -> & Hr). exists (pair_of r). split; [done|].
    rewrite elem_of_remove_dups. apply list_elem_of_fmap. by exists r.
Qed.

Lemma maxLength_sources_run (rs : list goRepo) :
  sourcesList_maxLength (Projects_sources (run rs))
  = foldr Z.max 0 (len <$> (goRepo_source <$> rs)).
Proof.
  unfold run. rewrite foldl_AddRepo_sources, foldl_addSource_maxLength.
  unfold source_keys. simpl. by rewrite <-!list_fmap_compose.
Qed.

Lemma maxLength_owners_run (rs : list goRepo) :
  ownersList_maxLength (Projects_owners (run rs))
  = foldr Z.max 0 (len <$> (goRepo_owner <$> rs)).
Proof.
  unfold run. rewrite foldl_AddRepo_owners, foldl_addOwner_maxLength.
  unfold owner_keys. simpl. by rewrite <-!list_fmap_compose.
Qed.

Lemma len_nonneg (l : list string) : Forall (λ z, 0 ≤ z) (len <$> l).
Proof. apply Forall_fmap, Forall_forall. intros x _. unfold len; simpl. lia. Qed.
End catalog_more.

(** X1. [AddRepo] only appends: after any sequence of calls the slice of
    repositories is the old slice followed by the repositories added, in the
    order of the calls and with their repetitions. *)
Theorem AddRepo_appends_in_order (p : Projects) (rs : list goRepo) :
  Projects_repos (foldl AddRepo p rs) = Projects_repos p ++ rs
  ∧ Projects_repos (run rs) = rs.
Proof. split; [apply foldl_AddRepo_repos|]. unfold run. by rewrite foldl_AddRepo_repos. Qed.

(** X2. [Sources()] lists exactly the distinct source names of the
    repositories added, each once. *)
Theorem Sources_are_the_distinct_sources (rs : list goRepo) :
  Sources (run rs) ≡ₚ remove_dups (goRepo_source <$> rs)
  ∧ ∀ x, x ∈ Sources (run rs) ↔ ∃ r, r ∈ rs ∧ goRepo_source r = x.
Proof.
  split; [apply Sources_run_perm|].
  intros x. rewrite elem_of_Sources_run, list_elem_of_fmap. naive_solver.
Qed.

(** X3. The test [if !s.sources[k]] guards nothing: in every state, also
    one that holds the key with the value false, [addSource] leaves the map
    as the assignment [s.sources[k] = true] alone would; afterwards the key
    reads true and every other key reads as before. The same holds for
    [addOwner]. *)
Theorem addSource_is_insert (s : sourcesList) (o : ownersList)
    (k k' : sourceType) (q q' : ownerType) :
  sourcesList_sources (addSource s k) = <[k := true]> (sourcesList_sources s)
  ∧ mapget (sourcesList_sources (addSource s k)) k'
    = (if decide (k = k') then true else mapget (sourcesList_sources s) k')
  ∧ ownersList_owners (addOwner o q) = <[q := true]> (ownersList_owners o)
  ∧ mapget (ownersList_owners (addOwner o q)) q'
    = (if decide (q = q') then true else mapget (ownersList_owners o) q').
Proof.
  rewrite addSource_insert, addOwner_insert. unfold mapget. repeat split.
  - destruct (decide (k = k')) as [->|Hne];
      [by rewrite lookup_insert_eq|by rewrite lookup_insert_ne].
  - destruct (decide (q = q')) as [->|Hne];
      [by rewrite lookup_insert_eq|by rewrite lookup_insert_ne].
Qed.

(** X4. The two indexes do not depend on the order in which the
    repositories were added: catalogs built from the same repositories in
    another order have equal source and owner indexes, [maxLength]
    included. *)
Theorem indexes_ignore_order (rs rs' : list goRepo) :
  rs ≡ₚ rs' →
  Projects_sources (run rs) = Projects_sources (run rs')
  ∧ Projects_owners (run rs) = Projects_owners (run rs').
Proof.
  intros Hperm. unfold run. rewrite !foldl_AddRepo_sources, !foldl_AddRepo_owners.
  split.
  - apply foldl_addSource_perm. unfold source_keys. by rewrite Hperm.
  - apply foldl_addOwner_perm. unfold owner_keys. by rewrite Hperm.
Qed.

Lemma indexes_ignore_order_witness :
  Projects_sources (run scenario_repos) = Projects_sources (run (reverse scenario_repos))
  ∧ Projects_owners (run scenario_repos) = Projects_owners (run (reverse scenario_repos)).
Proof.
  apply (indexes_ignore_order scenario_repos (reverse scenario_repos)).
  vm_compute. apply perm_swap.
Defined.

(** X5. [maxLength] bounds the names listed: every string of [Sources()]
    is at most [sources.maxLength] long and every string of [Owners()] at
    most [owners.maxLength]; and once a repository was added some source
    name and some owner name have exactly that length. *)
Theorem maxLength_bounds_names (rs : list goRepo) :
  (∀ x, x ∈ Sources (run rs) →
     len x ≤ sourcesList_maxLength (Projects_sources (run rs)))
  ∧ (∀ x, x ∈ Owners (run rs) →
       len x ≤ ownersList_maxLength (Projects_owners (run rs)))
  ∧ (rs ≠ [] →
       (∃ x, x ∈ Sources (run rs)
             ∧ len x = sourcesList_maxLength (Projects_sources (run rs)))
       ∧ (∃ x, x ∈ Owners (run rs)
               ∧ len x = ownersList_maxLength (Projects_owners (run rs)))).
Proof.
  rewrite maxLength_sources_run, maxLength_owners_run. split; [|split].
  - intros x Hx%elem_of_Sources_run. by apply foldr_Zmax_ge, list_elem_of_fmap_2.
  - intros x Hx%elem_of_Owners_run. by apply foldr_Zmax_ge, list_elem_of_fmap_2.
  - intros Hne. split.
    + assert (Hin : foldr Z.max 0 (len <$> (goRepo_source <$> rs))
                    ∈ len <$> (goRepo_source <$> rs))
        by (apply foldr_Zmax_attained; [by destruct rs|apply len_nonneg]).
      apply list_elem_of_fmap in Hin as (x & Hx & Hin).
      exists x. by rewrite elem_of_Sources_run.
    + assert (Hin : foldr Z.max 0 (len <$> (goRepo_owner <$> rs))
                    ∈ len <$> (goRepo_owner <$> rs))
        by (apply foldr_Zmax_attained; [by destruct rs|apply len_nonneg]).
      apply list_elem_of_fmap in Hin as (x & Hx & Hin).
      exists x. by rewrite elem_of_Owners_run.
Qed.

Lemma maxLength_bounds_names_witness :
  (∃ x, x ∈ Sources (run scenario_repos)
        ∧ len x = sourcesList_maxLength (Projects_sources (run scenario_repos)))
  ∧ (∃ x, x ∈ Owners (run scenario_repos)
          ∧ len x = ownersList_maxLength (Projects_owners (run scenario_repos))).
Proof. by apply (maxLength_bounds_names scenario_repos). Defined.

(** X6. There are never more source names than owner entries, nor more
    owner entries than repositories: [len(Sources()) <= len(Owners()) <=
    len(repos)]. *)
Theorem Sources_Owners_repos_lengths (rs : list goRepo) :
  (length (Sources (run rs)) ≤ length (Owners (run rs)))%nat
  ∧ (length (Owners (run rs)) ≤ length (Projects_repos (run rs)))%nat.
Proof.
  rewrite Sources_run_perm, Owners_run_perm. unfold run.
  rewrite foldl_AddRepo_repos, length_fmap. split.
  - rewrite <-(length_fmap snd (remove_dups (pair_of <$> rs))).
    apply submseteq_length, NoDup_submseteq; [apply NoDup_remove_dups|].
    intros x Hx. rewrite elem_of_remove_dups in Hx.
    apply list_elem_of_fmap in Hx as (r & -> & Hr).
    apply list_elem_of_fmap. exists (pair_of r). split; [done|].
    rewrite elem_of_remove_dups. apply list_elem_of_fmap. by exists r.
  - simpl. rewrite <-(length_fmap pair_of rs).
    apply submseteq_length, NoDup_submseteq; [apply NoDup_remove_dups|].
    intros x. by rewrite elem_of_remove_dups.
Qed.

(** ** The decomposition of a path *)

Lemma length_Split (s : string) :
  length (Split s Separator) = S (count_separators s).
Proof.
  induction s as [|c s IH]; simpl; [done|].
  destruct (Ascii.eqb c Separator); simpl; [by rewrite IH|].
  destruct (Split s Separator); simpl in *; lia.
Qed.

(** X7. [parsegoRepo] panics exactly on the paths with fewer than two
    separators, whatever the catalog; on every other path it returns and
    stores one more repository. *)
Theorem parsegoRepo_panics_iff_short (path : string) (P : Projects) :
  ((count_separators path < 2)%nat ↔ ∃ x, parsegoRepo path P = Panic x)
  ∧ ((2 ≤ count_separators path)%nat ↔
       ∃ P', parsegoRepo path P = Ok P'
             ∧ length (Projects_repos P') = S (length (Projects_repos P))).
Proof.
  pose proof (length_Split path) as Hlen.
  destruct (decide (count_separators path < 2)%nat) as [Hlt|Hge].
  - destruct (parsegoRepo_short path P) as (i & _ & Hp); [lia|].
    split; split; try lia.
    + intros _. eauto.
    + intros (P' & HP' & _). congruence.
  - destruct (last_three (Split path Separator)) as (pre & repo & owner & source & Hparts);
      [lia|].
    destruct (parsegoRepo_segments path P pre repo owner source Hparts) as (_ & _ & _ & Hp).
    split; split; try lia.
    + intros [x Hx]. congruence.
    + intros _. eexists. split; [exact Hp|]. simpl. rewrite length_app. simpl. lia.
Qed.

Lemma Split_last_three (pre a b c : string) :
  has_separator a = false → has_separator b = false → has_separator c = false →
  Split (pre +:+ "/" +:+ a +:+ "/" +:+ b +:+ "/" +:+ c) Separator
  = Split pre Separator ++ [a; b; c].
Proof.
  intros Ha Hb Hc.
  change (pre +:+ "/" +:+ a +:+ "/" +:+ b +:+ "/" +:+ c)
    with (pre +:+ String Separator (a +:+ String Separator (b +:+ String Separator c))).
  rewrite !Split_app.
  by rewrite (Split_no_separator a), (Split_no_separator b), (Split_no_separator c).
Qed.

(** X8. The decomposition does not depend on what precedes the last three
    components: for components [a], [b], [c] without separator, the path
    [pre/a/b/c] gives the record with repo [a], owner [b] and source [c]
    for every prefix [pre] (the value of [GOPATH], with any number of
    components); an empty [c], from a separator at the end of the path, is
    stored as the source like any other. *)
Theorem parsegoRepo_ignores_prefix (pre a b c : string) (P : Projects) :
  has_separator a = false → has_separator b = false → has_separator c = false →
  parsegoRepo (pre +:+ "/" +:+ a +:+ "/" +:+ b +:+ "/" +:+ c) P
  = Ok (AddRepo P {| goRepo_source := c; goRepo_owner := b; goRepo_repo := a |}).
Proof.
  intros Ha Hb Hc.
  by destruct (parsegoRepo_segments _ P (Split pre Separator) a b c
                 (Split_last_three pre a b c Ha Hb Hc)) as (_ & _ & _ & ?).
Qed.

Lemma parsegoRepo_ignores_prefix_witness :
  parsegoRepo ("/home/me/go/src" +:+ "/" +:+ "github.com" +:+ "/" +:+ "cizixs" +:+ "/" +:+ "gpm")
    NewProjects
  = Ok (AddRepo NewProjects
          {| goRepo_source := "gpm"; goRepo_owner := "cizixs"; goRepo_repo := "github.com" |})
  ∧ parsegoRepo ("x" +:+ "/" +:+ "github.com" +:+ "/" +:+ "cizixs" +:+ "/" +:+ EmptyString)
      NewProjects
    = Ok (AddRepo NewProjects
            {| goRepo_source := EmptyString; goRepo_owner := "cizixs";
               goRepo_repo := "github.com" |}).
Proof.
  split.
  - apply (parsegoRepo_ignores_prefix "/home/me/go/src" "github.com" "cizixs" "gpm");
      reflexivity.
  - apply (parsegoRepo_ignores_prefix "x" "github.com" "cizixs" EmptyString);
      reflexivity.
Defined.

(** ** The output *)

Lemma string_app_assoc (a b c : string) : (a +:+ b) +:+ c = a +:+ b +:+ c.
Proof. induction a as [|x a IH]; [done|]. by rewrite !app_cons, IH. Qed.

Lemma string_app_nil_r (a : string) : a +:+ EmptyString = a.
Proof. induction a as [|x a IH]; [done|]. by rewrite app_cons, IH. Qed.

Lemma foldr_append_app (l1 l2 : list string) :
  foldr String.append EmptyString (l1 ++ l2)
  = foldr String.append EmptyString l1 +:+ foldr String.append EmptyString l2.
Proof.
  induction l1 as [|a l1 IH]; simpl; [done|]. by rewrite IH, string_app_assoc.
Qed.

Lemma printResult_AddRepo (p : Projects) (r : goRepo) :
  printResult (AddRepo p r)
  = printResult p +:+ Printf_project (length (Projects_repos p)) r.
Proof.
  unfold printResult. cbn [AddRepo Projects_repos].
  rewrite imap_app, foldr_append_app. simpl.
  by rewrite string_app_nil_r, Nat.add_0_r.
Qed.

(** X9. The output grows as the catalog does: after one more [AddRepo],
    [printResult] writes what it wrote before followed by one line for the
    new repository, numbered with the count of the repositories before it;
    what was written for the earlier repositories does not change. For an
    empty catalog nothing is written. *)
Theorem printResult_appends_a_line (p : Projects) (r : goRepo) :
  printResult NewProjects = EmptyString
  ∧ printResult (AddRepo p r)
    = printResult p +:+ itoa (length (Projects_repos p)) +:+ ":  "
        +:+ goRepo_repo r +:+ TAB +:+ goRepo_owner r +:+ TAB +:+ goRepo_source r
        +:+ NEWLINE.
Proof. split; [done|]. by rewrite printResult_AddRepo. Qed.

(** X10. [parsegoRepo] followed by [printResult]: the line written for a
    path shows its last three components in the order in which they stand
    in the path, [a], [b], [c] for [pre/a/b/c]: the record holds them as
    repo, owner and source and the line is written as repo, owner,
    source. *)
Theorem printResult_shows_path_order (pre a b c : string) (P : Projects) :
  has_separator a = false → has_separator b = false → has_separator c = false →
  ∃ P', parsegoRepo (pre +:+ "/" +:+ a +:+ "/" +:+ b +:+ "/" +:+ c) P = Ok P'
        ∧ printResult P'
          = printResult P +:+ itoa (length (Projects_repos P)) +:+ ":  "
              +:+ a +:+ TAB +:+ b +:+ TAB +:+ c +:+ NEWLINE.
Proof.
  intros Ha Hb Hc. eexists. split.
  - by destruct (parsegoRepo_segments _ P (Split pre Separator) a b c
                   (Split_last_three pre a b c Ha Hb Hc)) as (_ & _ & _ & ?).
  - by rewrite printResult_AddRepo.
Qed.

Lemma printResult_shows_path_order_witness :
  ∃ P', parsegoRepo ("/ws/src" +:+ "/" +:+ "github.com" +:+ "/" +:+ "alice" +:+ "/" +:+ "proj1")
          NewProjects = Ok P'
        ∧ printResult P'
          = printResult NewProjects +:+ itoa (length (Projects_repos NewProjects)) +:+ ":  "
              +:+ "github.com" +:+ TAB +:+ "alice" +:+ TAB +:+ "proj1" +:+ NEWLINE.
Proof.
  apply (printResult_shows_path_order "/ws/src" "github.com" "alice" "proj1" NewProjects);
    reflexivity.
Defined.

(** ** The classifier *)



(** X13. The test [isDir(path)] in [isGogoRepo] is what keeps [isGitRoot]
    off the files: on a path that names a file [isGitRoot] alone panics
    (it looks for [.git] below the file), while [isGogoRepo] returns
    false; on a path that names a directory the two agree. *)
Theorem isDir_guards_isGitRoot (fs : tree) (p : string) :
  (node_at fs p = Some File →
     isGitRoot fs p = Panic NilDereference ∧ isGogoRepo fs p = Ok false)
  ∧ (∀ es, node_at fs p = Some (Dir es) → isGitRoot fs p = isGogoRepo fs p).
Proof.
  split.
  - intros Hp. split; [|by rewrite (isGogoRepo_node fs p File Hp)].
    apply node_at_realpath in Hp as (L & HL & Ht).
    unfold isGitRoot. rewrite isDir_spec, (realpath_Join fs p ".git" L HL) by done.
    unfold walk_component. by rewrite Ht.
  - intros es Hp. rewrite (isGogoRepo_node fs p (Dir es) Hp).
    apply node_at_realpath in Hp as (L & HL & Ht). by apply (isGitRoot_spec fs p L).
Qed.

Lemma isDir_guards_isGitRoot_witness :
  (isGitRoot scenario "/ws/src/github.com/alice/proj1/main.go" = Panic NilDereference
   ∧ isGogoRepo scenario "/ws/src/github.com/alice/proj1/main.go" = Ok false)
  ∧ isGitRoot scenario "/ws/src/github.com/bob/proj2"
    = isGogoRepo scenario "/ws/src/github.com/bob/proj2".
Proof.
  split.
  - apply (proj1 (isDir_guards_isGitRoot scenario "/ws/src/github.com/alice/proj1/main.go")).
    reflexivity.
  - apply (proj2 (isDir_guards_isGitRoot scenario "/ws/src/github.com/bob/proj2")
             [(".git", Dir [])]).
    reflexivity.
Defined.

(** ** The walk and [main] *)

Section lists_more.
Context {A B : Type}.

Lemma flat_map_ext_elem (g1 g2 : A → list B) (l : list A) :
  (∀ a, a ∈ l → g1 a = g2 a) → flat_map g1 l = flat_map g2 l.
Proof.
  induction l as [|a l IH]; intros Hext; simpl; [done|].
  rewrite Hext, IH; [done| |by left]. intros a' Ha'. apply Hext. by right.
Qed.

Lemma filter_flat_map (f : B → bool) (g : A → list B) (l : list A) :
  List.filter f (flat_map g l) = flat_map (λ a, List.filter f (g a)) l.
Proof.
  induction l as [|a l IH]; simpl; [done|]. by rewrite List.filter_app, IH.
Qed.
End lists_more.

Section walk_more.
Variable fs : tree.
Hypothesis fs_wf : wf_tree fs = true.
Implicit Types (t c : tree) (es : list (string * tree)) (n p q : string)
  (L : list string).

Lemma is_root_node p t : node_at fs p = Some t → is_root fs p = is_repo_node t.
Proof.
  intros Hp. unfold is_root. rewrite (isGogoRepo_node fs p t Hp).
  by destruct (is_repo_node t).
Qed.

(** The paths parsed are the visited paths on which the check is true. *)
Lemma found_filter t :
  ∀ p L, realpath fs p = inr L → get_node fs (rev L) = Some t →
    found p t = List.filter (is_root fs) (visited p t).
Proof.
  induction t as [|es IH] using tree_ind; intros p L HL Ht.
  - cbn [found visited List.filter is_repo_node].
    rewrite (is_root_node p File) by (apply node_at_realpath; eauto). done.
  - pose proof (wf_tree_get_node fs _ _ fs_wf Ht) as Hwf.
    assert (Hp : is_root fs p = is_repo_node (Dir es))
      by (apply is_root_node, node_at_realpath; eauto).
    cbn [found visited List.filter]. rewrite Hp.
    destruct (is_repo_node (Dir es)); [done|].
    rewrite filter_flat_map. apply flat_map_ext_elem. intros [n c] Hin.
    destruct (wf_tree_child es n c Hwf Hin) as (Hn & _ & Hl).
    destruct (Lstat_child fs p L es n c HL Ht Hn Hl) as [HLc Htc].
    rewrite Forall_forall in IH. by apply (IH (n, c) Hin _ (n :: L)).
Qed.

Lemma parse_all_records (paths : list string) (P P' : Projects) :
  parse_all paths P = Ok P' →
  ∃ rs, Projects_repos P' = Projects_repos P ++ rs
        ∧ Forall2 (λ D r, ∀ Q, parsegoRepo D Q = Ok (AddRepo Q r)) paths rs.
Proof.
  revert P. induction paths as [|q paths IH]; intros P; simpl.
  - intros [= <-]. exists []. by rewrite app_nil_r.
  - destruct (parsegoRepo q P) as [P1|] eqn:HP1; [|done]. simpl. intros HP'.
    destruct (parsegoRepo_record q P P1 HP1) as [r Hr].
    destruct (IH P1 HP') as (rs & Hrs & Hall).
    rewrite Hr in HP1. injection HP1 as <-. simpl in Hrs.
    exists (r :: rs). split; [by rewrite Hrs, <-app_assoc|by constructor].
Qed.

End walk_more.

(** X15. After a walk that completes, the repositories added to the
    catalog are the decompositions of the visited paths on which the check
    is true, one for each, in the order of the visit: nothing else is
    added, no root is added twice. *)
Theorem Walk_adds_the_visited_roots (fs : tree) (root : string) (fuel : nat)
    (P0 P : Projects) (e : option error) (tr : list string) :
  wf_tree fs = true →
  filepath_Walk fs (visit fs) fuel root (P0, []) = Some (Ok (e, (P, tr))) →
  ∃ rs, Projects_repos P = Projects_repos P0 ++ rs
        ∧ Forall2 (λ D r, ∀ Q, parsegoRepo D Q = Ok (AddRepo Q r))
                  (List.filter (is_root fs) tr) rs.
Proof.
  intros Hwf HW. apply (filepath_Walk_result fs Hwf) in HW. symmetry in HW.
  apply Walk_result_Ok in HW as [(L & t & HL & Ht & HP & ->)|(HL & -> & ->)].
  - rewrite <-(found_filter fs Hwf t root L HL Ht). by apply parse_all_records.
  - exists []. rewrite app_nil_r. split; [done|].
    simpl. unfold is_root. rewrite isGogoRepo_spec, HL. constructor.
Qed.

Lemma Walk_adds_the_visited_roots_witness :
  ∃ rs, Projects_repos (run scenario_repos) = Projects_repos NewProjects ++ rs
        ∧ Forall2 (λ D r, ∀ Q, parsegoRepo D Q = Ok (AddRepo Q r))
                  (List.filter (is_root scenario) scenario_trace) rs.
Proof.
  apply (Walk_adds_the_visited_roots scenario "/ws/src" 10 NewProjects
           (run scenario_repos) None scenario_trace); vm_compute; reflexivity.
Defined.



Lemma realpath_nonempty (fs : tree) (p : string) (L : list string) :
  realpath fs p = inr L → p ≠ EmptyString.
Proof. unfold realpath. by destruct (decide (p = EmptyString)). Qed.

Lemma Walk_missing_root (fs : tree) (root : string) (fuel : nat) (P0 : Projects)
    (tr0 : list string) (e : Errno) :
  realpath fs root = inl e →
  filepath_Walk fs (visit fs) fuel root (P0, tr0)
  = Some (match e with
          | ENOENT => Ok (None, (P0, tr0 ++ [root]))
          | ENOTDIR => Panic NilDereference
          end).
Proof.
  intros HL. unfold filepath_Walk, os_Lstat, os_Stat, call, visit.
  rewrite HL, isGogoRepo_spec, HL. by destruct e.
Qed.

(** X17. When [GOPATH] names a file, [main] panics on the nil [fileInfo]
    before anything is visited or written, on every tree. *)
Theorem main_panics_when_GOPATH_is_a_file (fs : tree) (gopath : string) (fuel : nat) :
  node_at fs gopath = Some File →
  main fs gopath fuel = Some (Panic NilDereference)
  ∧ main_stdout fs gopath fuel = Some (Panic NilDereference).
Proof.
  intros (L & HL & Ht)%node_at_realpath.
  pose proof (realpath_nonempty fs gopath L HL) as Hne.
  assert (Hroot : realpath fs (path_Join gopath "src") = inl ENOTDIR).
  { rewrite (realpath_Join fs gopath "src" L HL) by done.
    unfold walk_component. by rewrite Ht. }
  unfold main, main_stdout. destruct (decide (gopath = EmptyString)); [done|].
  by rewrite (Walk_missing_root fs _ fuel NewProjects [] ENOTDIR Hroot).
Qed.

Lemma main_panics_when_GOPATH_is_a_file_witness :
  main scenario "/ws/src/github.com/alice/proj1/main.go" 3 = Some (Panic NilDereference)
  ∧ main_stdout scenario "/ws/src/github.com/alice/proj1/main.go" 3
    = Some (Panic NilDereference).
Proof.
  apply (main_panics_when_GOPATH_is_a_file scenario
           "/ws/src/github.com/alice/proj1/main.go" 3).
  reflexivity.
Defined.



Section walk_panics.
Variable fs : tree.
Hypothesis fs_wf : wf_tree fs = true.

Lemma parsegoRepo_long (path : string) (P : Projects) :
  (2 ≤ count_separators path)%nat → ∃ P', parsegoRepo path P = Ok P'.
Proof.
  intros Hc. pose proof (length_Split path) as Hlen.
  destruct (last_three (Split path Separator)) as (pre & repo & owner & source & Hparts);
    [lia|].
  destruct (parsegoRepo_segments path P pre repo owner source Hparts) as (_ & _ & _ & Hp).
  eauto.
Qed.

Lemma parse_all_panic_path (paths : list string) (P : Projects) (x : panic) :
  parse_all paths P = Panic x →
  ∃ D, D ∈ paths ∧ (count_separators D < 2)%nat.
Proof.
  revert P. induction paths as [|q paths IH]; intros P; simpl; [done|].
  destruct (parsegoRepo q P) as [P1|y] eqn:HP1; simpl.
  - intros (D & HD & Hc)%IH. exists D. split; [by right|done].
  - intros _. exists q. split; [by left|].
    destruct (decide (count_separators q < 2)%nat) as [|Hge]; [done|].
    destruct (parsegoRepo_long q P) as [P' HP']; [lia|congruence].
Qed.

Lemma found_visited_root (t : tree) (p : string) (L : list string) (D : string) :
  realpath fs p = inr L → get_node fs (rev L) = Some t →
  D ∈ found p t → D ∈ visited p t ∧ is_root fs D = true.
Proof.
  intros HL Ht. rewrite (found_filter fs fs_wf t p L HL Ht).
  rewrite list_elem_of_In, List.filter_In, <-list_elem_of_In. done.
Qed.
End walk_panics.

(** X19. An index panic of the walk comes from [parsegoRepo] on a
    path that passed the check: when the walk stops with the panic of an
    index out of range, some directory at or below the root of the walk
    holds a [.git] directory and has a path of fewer than three segments
    (fewer than two separators). *)
Theorem Walk_index_panic_has_a_short_root (fs : tree) (root : string) (fuel : nat)
    (P0 : Projects) (i m : Z) :
  wf_tree fs = true →
  filepath_Walk fs (visit fs) fuel root (P0, []) = Some (Panic (IndexOutOfRange i m)) →
  ∃ D, below fs D root ∧ isGogoRepo fs D = Ok true
       ∧ (count_separators D < 2)%nat
       ∧ (length (Split D Separator) < 3)%nat.
Proof.
  intros Hwf HW. apply (filepath_Walk_result fs Hwf) in HW.
  unfold Walk_result in HW. destruct (realpath fs root) as [[|]|L] eqn:HL; [done..|].
  destruct (realpath_valid fs root L HL) as [t Ht]. rewrite Ht in HW.
  destruct (parse_all (found root t) P0) as [P|y] eqn:HP; [done|].
  destruct (parse_all_panic_path _ _ _ HP) as (D & HD & Hc).
  destruct (found_visited_root fs Hwf t root L D HL Ht HD) as [Hv Hr].
  exists D. split; [|split; [|split]].
  - destruct (visited_inside fs Hwf t root L D HL Ht Hv) as (LD & tD & k & ? & ? & ? & _).
    by exists LD, L, k.
  - by unfold is_root in Hr; destruct (isGogoRepo fs D) as [[]|].
  - done.
  - pose proof (length_Split D). lia.
Qed.

Lemma Walk_index_panic_has_a_short_root_witness :
  ∃ D, below shallow D "/src" ∧ isGogoRepo shallow D = Ok true
       ∧ (count_separators D < 2)%nat
       ∧ (length (Split D Separator) < 3)%nat.
Proof.
  apply (Walk_index_panic_has_a_short_root shallow "/src" 1 NewProjects (-1) 2);
    reflexivity.
Defined.

(** X24. A walk whose root passes the check and has a path of fewer than
    three segments stops in [parsegoRepo], at the first call of [visit],
    with the panic of a negative index: nothing is added and no entry of
    the root is walked. *)
Theorem Walk_panics_at_a_short_root (fs : tree) (root : string) (fuel : nat)
    (P0 : Projects) (tr0 : list string) :
  isGogoRepo fs root = Ok true →
  (length (Split root Separator) < 3)%nat →
  ∃ i : Z, i < 0
    ∧ visit fs root None None P0
      = Panic (IndexOutOfRange i (Z.of_nat (length (Split root Separator))))
    ∧ filepath_Walk fs (visit fs) (S fuel) root (P0, tr0)
      = Some (Panic (IndexOutOfRange i (Z.of_nat (length (Split root Separator))))).
Proof.
  intros Hcheck Hshort.
  destruct (parsegoRepo_short root P0 Hshort) as (i & Hi & Hp).
  exists i. split; [done|].
  assert (Hvisit : ∀ f err, visit fs root f err P0
            = Panic (IndexOutOfRange i (Z.of_nat (length (Split root Separator))))).
  { intros f err. unfold visit. rewrite Hcheck. simpl. by rewrite Hp. }
  split; [apply Hvisit|].
  pose proof Hcheck as Hnode.
  apply isGogoRepo_true_iff in Hnode as (es & gs & (L & HL & Ht)%node_at_realpath & _).
  unfold filepath_Walk, os_Lstat, os_Stat. rewrite HL, Ht.
  cbn [walk info_of IsDir negb]. unfold readDirNames. rewrite HL, Ht.
  unfold call. cbn [fst snd]. by rewrite Hvisit.
Qed.

Lemma Walk_panics_at_a_short_root_witness :
  ∃ i : Z, i < 0
    ∧ visit shallow "/src" None None NewProjects
      = Panic (IndexOutOfRange i (Z.of_nat (length (Split "/src" Separator))))
    ∧ filepath_Walk shallow (visit shallow) 1 "/src" (NewProjects, [])
      = Some (Panic (IndexOutOfRange i (Z.of_nat (length (Split "/src" Separator))))).
Proof.
  apply (Walk_panics_at_a_short_root shallow "/src" 0 NewProjects []);
    [reflexivity|vm_compute; lia].
Defined.

(** X20. The root of the walk is visited first, and [filepath.Walk]
    returns nil for a walk that completes. When the root is itself a
    repository root nothing else is visited and exactly its record is
    added. *)
Theorem Walk_starts_at_the_root (fs : tree) (root : string) (fuel : nat)
    (P0 P : Projects) (e : option error) (tr : list string) :
  wf_tree fs = true →
  filepath_Walk fs (visit fs) fuel root (P0, []) = Some (Ok (e, (P, tr))) →
  e = None ∧ head tr = Some root
  ∧ (isGogoRepo fs root = Ok true →
       tr = [root]
       ∧ ∃ r, (∀ Q, parsegoRepo root Q = Ok (AddRepo Q r))
              ∧ Projects_repos P = Projects_repos P0 ++ [r]).
Proof.
  intros Hwf HW. apply (filepath_Walk_result fs Hwf) in HW.
  assert (e = None) as ->.
  { unfold Walk_result in HW. destruct (realpath fs root) as [[|]|L]; [congruence..|].
    destruct (get_node fs (rev L)); [|congruence].
    destruct (parse_all _ _); simpl in HW; congruence. }
  symmetry in HW.
  apply Walk_result_Ok in HW as [(L & t & HL & Ht & HP & ->)|(HL & -> & ->)].
  - split; [done|]. split; [by destruct t|]. intros Hcheck.
    rewrite isGogoRepo_spec, HL, Ht in Hcheck. injection Hcheck as Hrepo.
    cbn [from_option] in Hrepo. split.
    + destruct t as [|es]; [done|]. cbn [visited]. by rewrite Hrepo.
    + assert (Hf : found root t = [root])
        by (destruct t as [|es]; [done|]; cbn [found]; by rewrite Hrepo).
      rewrite Hf in HP. simpl in HP.
      destruct (parsegoRepo root P0) as [P1|] eqn:HP1; [|done]. injection HP as <-.
      destruct (parsegoRepo_record root P0 P1 HP1) as [r Hr]. exists r. split; [done|].
      rewrite Hr in HP1. by injection HP1 as <-.
  - split; [done|]. split; [done|]. intros Hcheck.
    by rewrite isGogoRepo_spec, HL in Hcheck.
Qed.

Lemma Walk_starts_at_the_root_witness :
  (None : option error) = None ∧ head ["/ws/src/github.com/bob/proj2"] = Some "/ws/src/github.com/bob/proj2"
  ∧ (isGogoRepo scenario "/ws/src/github.com/bob/proj2" = Ok true →
       ["/ws/src/github.com/bob/proj2"] = ["/ws/src/github.com/bob/proj2"]
       ∧ ∃ r, (∀ Q, parsegoRepo "/ws/src/github.com/bob/proj2" Q = Ok (AddRepo Q r))
              ∧ Projects_repos (run [{| goRepo_source := "proj2"; goRepo_owner := "bob";
                                        goRepo_repo := "github.com" |}])
                = Projects_repos NewProjects ++ [r]).
Proof.
  apply (Walk_starts_at_the_root scenario "/ws/src/github.com/bob/proj2" 3 NewProjects
           (run [{| goRepo_source := "proj2"; goRepo_owner := "bob";
                    goRepo_repo := "github.com" |}]) None);
    vm_compute; reflexivity.
Defined.

(** *** Absolute paths *)

Section absolute.
Implicit Types (l : list string) (n : string).

Lemma valid_name_intro n : normal n → has_separator n = false → valid_name n = true.
Proof.
  intros Hn Hs. unfold valid_name. rewrite Hs.
  by rewrite bool_decide_eq_true_2.
Qed.

Lemma clean_segs_valid (r : bool) l (out : list string) :
  Forall (λ n, valid_name n = true) l → clean_segs r l out = rev l ++ out.
Proof.
  revert out. induction l as [|seg l IH]; intros out Hl; [done|].
  apply Forall_cons in Hl as [Hseg Hl].
  apply valid_name_spec in Hseg as [(H1 & H2 & H3) _]. simpl.
  destruct (decide (seg = EmptyString ∨ seg = ".")) as [[?|?]|_]; [done..|].
  destruct (decide (seg = "..")); [done|].
  by rewrite IH, <-app_assoc.
Qed.

Lemma clean_segs_skip_empty (r : bool) l (out : list string) :
  clean_segs r (EmptyString :: l) out = clean_segs r l out.
Proof. reflexivity. Qed.

Lemma abs_path_String l : abs_path l = String Separator (Joinsep l).
Proof. reflexivity. Qed.

Lemma Split_abs_path l :
  Forall (λ n, valid_name n = true) l → l ≠ [] →
  Split (abs_path l) Separator = EmptyString :: l.
Proof.
  intros Hl Hne. rewrite abs_path_String, Split_rooted, Split_Joinsep; [done..|].
  eapply Forall_impl; [exact Hl|]. by intros n [_ ?]%valid_name_spec.
Qed.

Lemma count_abs_path l :
  Forall (λ n, valid_name n = true) l → l ≠ [] →
  count_separators (abs_path l) = length l.
Proof.
  intros Hl Hne. pose proof (length_Split (abs_path l)) as H.
  rewrite Split_abs_path in H by done. cbn [length] in H. lia.
Qed.

Lemma path_Join_abs l n :
  Forall (λ n, valid_name n = true) l → valid_name n = true →
  path_Join (abs_path l) n = abs_path (l ++ [n]).
Proof.
  intros Hl Hn. pose proof (valid_name_spec n Hn) as [Hnorm Hsep].
  unfold path_Join. rewrite abs_path_String.
  destruct (decide (String Separator (Joinsep l) = EmptyString)); [done|].
  destruct (decide (n = EmptyString)) as [->|_]; [by destruct Hnorm|].
  change ("/" +:+ n) with (String Separator n).
  unfold path_Clean.
  destruct (decide (String Separator (Joinsep l) +:+ String Separator n = EmptyString));
    [done|].
  rewrite rooted_app by done. cbn [rooted]. rewrite Ascii.eqb_refl.
  unfold abs_path. change "/"%char with Separator.
  rewrite Split_app, (Split_no_separator n) by done.
  rewrite clean_segs_snoc by done. cbn [rev]. f_equal. f_equal. f_equal.
  destruct l as [|m l].
  - reflexivity.
  - rewrite <-abs_path_String, Split_abs_path by done.
    by rewrite clean_segs_skip_empty, clean_segs_valid, app_nil_r, rev_involutive.
Qed.

Lemma path_Join_rooted (gopath : string) n :
  rooted gopath = true → valid_name n = true →
  path_Join gopath n
  = abs_path (rev (clean_segs true (Split gopath Separator) []) ++ [n])
  ∧ Forall (λ n, valid_name n = true) (rev (clean_segs true (Split gopath Separator) [])).
Proof.
  intros Hr Hn. pose proof (valid_name_spec n Hn) as [Hnorm Hsep].
  assert (Hne : gopath ≠ EmptyString) by (by destruct gopath).
  split.
  - unfold path_Join. destruct (decide (gopath = EmptyString)); [done|].
    destruct (decide (n = EmptyString)) as [->|_]; [by destruct Hnorm|].
    change ("/" +:+ n) with (String Separator n).
    unfold path_Clean.
    destruct (decide (gopath +:+ String Separator n = EmptyString)) as [E|_];
      [by apply app_nonempty in E|].
    rewrite rooted_app, Hr by done.
    unfold abs_path. change "/"%char with Separator.
    by rewrite Split_app, (Split_no_separator n), clean_segs_snoc.
  - apply Forall_rev, Forall_forall. intros m Hm. apply valid_name_intro.
    + pose proof (clean_segs_out_ok true (Split gopath Separator) [] ltac:(constructor)) as Hok.
      unfold out_ok in Hok. rewrite Forall_forall in Hok.
      destruct (Hok m Hm) as (? & ? & ?). repeat split; auto.
    + pose proof (clean_segs_Forall (λ e, has_separator e = false) true
                    (Split gopath Separator) [] eq_refl (Split_pieces gopath)
                    ltac:(constructor)) as Hns.
      rewrite Forall_forall in Hns. by apply Hns.
Qed.

(** Joining names of entries one after the other onto a clean absolute
    path appends them as components. *)
Lemma foldl_Join_abs (names : list string) :
  ∀ l, Forall (λ n, valid_name n = true) l →
    Forall (λ n, valid_name n = true) names →
    foldl filepath_Join (abs_path l) names = abs_path (l ++ names).
Proof.
  induction names as [|n names IH]; intros l Hl Hn; [by rewrite app_nil_r|].
  apply Forall_cons in Hn as [Hn Hnames]. cbn [foldl].
  unfold filepath_Join at 2. rewrite path_Join_abs by done.
  rewrite IH; [by rewrite <-app_assoc| |done].
  apply Forall_app. split; [done|by constructor].
Qed.
End absolute.

(** X21. Below an absolute [GOPATH] other than the root directory
    [parsegoRepo] stays in bounds: the root of the walk,
    [path.Join(GOPATH, "src")], and every path that [filepath.Join] makes
    from it with names of directory entries has at least three segments,
    so the three index expressions are in range. *)
Theorem parsegoRepo_in_bounds_below_absolute_GOPATH (gopath : string)
    (names : list string) (P : Projects) :
  rooted gopath = true → path_Clean gopath ≠ "/" →
  Forall (λ n, valid_name n = true) names →
  (3 ≤ length (Split (foldl filepath_Join (path_Join gopath "src") names) Separator))%nat
  ∧ ∃ P', parsegoRepo (foldl filepath_Join (path_Join gopath "src") names) P = Ok P'.
Proof.
  intros Hr Hclean Hnames.
  destruct (path_Join_rooted gopath "src" Hr eq_refl) as [Hroot HX].
  set (X := rev (clean_segs true (Split gopath Separator) [])) in *.
  assert (HXne : X ≠ []).
  { intros HX0. apply Hclean. unfold path_Clean.
    destruct (decide (gopath = EmptyString)) as [->|_]; [done|]. rewrite Hr.
    change (rev (clean_segs true (Split gopath "/") [])) with X. by rewrite HX0. }
  assert (HXs : Forall (λ n, valid_name n = true) (X ++ ["src"]))
    by (apply Forall_app; split; [done|by constructor]).
  rewrite Hroot, foldl_Join_abs by done.
  assert (Hc : (2 ≤ count_separators (abs_path ((X ++ ["src"]) ++ names)))%nat).
  { rewrite count_abs_path; [|by apply Forall_app|by destruct X].
    rewrite !length_app. cbn [length]. destruct X; [done|]. cbn [length]. lia. }
  split; [|by apply parsegoRepo_long].
  pose proof (length_Split (abs_path ((X ++ ["src"]) ++ names))). lia.
Qed.

Lemma parsegoRepo_in_bounds_below_absolute_GOPATH_witness :
  (3 ≤ length (Split (foldl filepath_Join (path_Join "/ws/" "src")
                        ["github.com"; "alice"; "proj1"]) Separator))%nat
  ∧ ∃ P', parsegoRepo (foldl filepath_Join (path_Join "/ws/" "src")
                         ["github.com"; "alice"; "proj1"]) NewProjects = Ok P'.
Proof.
  apply (parsegoRepo_in_bounds_below_absolute_GOPATH "/ws/"
           ["github.com"; "alice"; "proj1"] NewProjects);
    [reflexivity|vm_compute; discriminate|by repeat constructor].
Defined.

(** ** The split of a path and the index lookups *)

Lemma Joinsep_Split (s : string) : Joinsep (Split s Separator) = s.
Proof.
  induction s as [|c s IH]; [done|]. simpl.
  pose proof (Split_nonempty s Separator) as Hne.
  destruct (Ascii.eqb c Separator) eqn:E.
  - apply Ascii.eqb_eq in E as ->.
    destruct (Split s Separator) as [|piece pieces]; [done|].
    rewrite Joinsep_cons, IH. reflexivity.
  - destruct (Split s Separator) as [|piece [|piece' pieces]]; [done|..].
    + simpl in *. by rewrite IH.
    + rewrite Joinsep_cons in *. by rewrite app_cons, IH.
Qed.

(** X22. The segments that [parsegoRepo] indexes: the split of a path has
    one segment more than the path has separators, no segment holds a
    separator, and the segments joined by the separator give the path
    back, so that nothing of the path is lost or reordered; and splitting
    a joined list of separator-free segments returns the list. *)
Theorem Split_segments (path : string) :
  length (Split path Separator) = S (count_separators path)
  ∧ Forall (λ piece, has_separator piece = false) (Split path Separator)
  ∧ Joinsep (Split path Separator) = path
  ∧ ∀ segs : list string, segs ≠ [] →
      Forall (λ seg, has_separator seg = false) segs →
      Split (Joinsep segs) Separator = segs.
Proof.
  repeat split.
  - apply length_Split.
  - apply Split_pieces.
  - apply Joinsep_Split.
  - apply Split_Joinsep.
Qed.

Lemma Split_segments_witness :
  Split (Joinsep ["src"; "github.com"; "cizixs"; "gpm"]) Separator
  = ["src"; "github.com"; "cizixs"; "gpm"].
Proof.
  apply (proj2 (proj2 (proj2 (Split_segments EmptyString)))); [done|].
  repeat constructor.
Defined.

Lemma foldl_addSource_lookup (ks : list sourceType) (s : sourcesList) (k : sourceType) :
  sourcesList_sources (foldl addSource s ks) !! k
  = if decide (k ∈ ks) then Some true else sourcesList_sources s !! k.
Proof.
  revert s. induction ks as [|k' ks IH]; intros s; simpl.
  - destruct (decide (k ∈ [])) as [H|_]; [by apply elem_of_nil in H|done].
  - rewrite IH, addSource_insert.
    destruct (decide (k ∈ ks)) as [Hin|Hnin].
    + destruct (decide (k ∈ k' :: ks)) as [_|Hn]; [done|]. destruct Hn. by right.
    + destruct (decide (k = k')) as [->|Hne].
      * rewrite lookup_insert_eq.
        destruct (decide (k' ∈ k' :: ks)) as [_|Hn]; [done|]. destruct Hn. by left.
      * rewrite lookup_insert_ne by done.
        destruct (decide (k ∈ k' :: ks)) as [[?|?]%elem_of_cons|_]; done.
Qed.

Lemma foldl_addOwner_lookup (ks : list ownerType) (o : ownersList) (k : ownerType) :
  ownersList_owners (foldl addOwner o ks) !! k
  = if decide (k ∈ ks) then Some true else ownersList_owners o !! k.
Proof.
  revert o. induction ks as [|k' ks IH]; intros o; simpl.
  - destruct (decide (k ∈ [])) as [H|_]; [by apply elem_of_nil in H|done].
  - rewrite IH, addOwner_insert.
    destruct (decide (k ∈ ks)) as [Hin|Hnin].
    + destruct (decide (k ∈ k' :: ks)) as [_|Hn]; [done|]. destruct Hn. by right.
    + destruct (decide (k = k')) as [->|Hne].
      * rewrite lookup_insert_eq.
        destruct (decide (k' ∈ k' :: ks)) as [_|Hn]; [done|]. destruct Hn. by left.
      * rewrite lookup_insert_ne by done.
        destruct (decide (k ∈ k' :: ks)) as [[?|?]%elem_of_cons|_]; done.
Qed.

(** X23. In a catalog built by [AddRepo] the indexes hold no key with the
    value false, so the listings and the lookups agree: a source reads
    true in [sources] exactly when it is the source of a repository added,
    which is exactly when [Sources()] lists it; an (owner, source) pair
    reads true in [owners] exactly when a repository added has that owner
    and that source. A lookup of anything else gives false. *)
Theorem index_lookup_agrees_with_listing (rs : list goRepo) (src owner : string) :
  (mapget (sourcesList_sources (Projects_sources (run rs))) (newSource src) = true
   ↔ ∃ r, r ∈ rs ∧ goRepo_source r = src)
  ∧ (mapget (sourcesList_sources (Projects_sources (run rs))) (newSource src) = true
     ↔ src ∈ Sources (run rs))
  ∧ (mapget (ownersList_owners (Projects_owners (run rs))) (newOwner owner src) = true
     ↔ ∃ r, r ∈ rs ∧ goRepo_owner r = owner ∧ goRepo_source r = src)
  ∧ (∀ k v, sourcesList_sources (Projects_sources (run rs)) !! k = Some v → v = true)
  ∧ (∀ k v, ownersList_owners (Projects_owners (run rs)) !! k = Some v → v = true).
Proof.
  assert (HS : mapget (sourcesList_sources (Projects_sources (run rs))) (newSource src) = true
               ↔ ∃ r, r ∈ rs ∧ goRepo_source r = src).
  { unfold mapget, run. rewrite foldl_AddRepo_sources, foldl_addSource_lookup.
    unfold source_keys. destruct (decide _) as [Hin|Hnin]; simpl.
    - apply list_elem_of_fmap in Hin as (r & [= ->] & Hr). split; [eauto|done].
    - rewrite lookup_empty. simpl. split; [done|]. intros (r & Hr & <-).
      destruct Hnin. apply list_elem_of_fmap. by exists r. }
  split; [exact HS|]. split; [|split; [|split]].
  - rewrite HS, elem_of_Sources_run, list_elem_of_fmap. naive_solver.
  - unfold mapget, run. rewrite foldl_AddRepo_owners, foldl_addOwner_lookup.
    unfold owner_keys. destruct (decide _) as [Hin|Hnin]; simpl.
    + apply list_elem_of_fmap in Hin as (r & [= -> ->] & Hr). split; [eauto|done].
    + rewrite lookup_empty. simpl. split; [done|]. intros (r & Hr & <- & <-).
      destruct Hnin. apply list_elem_of_fmap. by exists r.
  - intros k v. unfold run. rewrite foldl_AddRepo_sources, foldl_addSource_lookup.
    destruct (decide _); [by intros [= <-]|]. simpl. by rewrite lookup_empty.
  - intros k v. unfold run. rewrite foldl_AddRepo_owners, foldl_addOwner_lookup.
    destruct (decide _); [by intros [= <-]|]. simpl. by rewrite lookup_empty.
Qed.

Lemma index_lookup_agrees_with_listing_witness :
  "proj1" ∈ Sources (run scenario_repos).
Proof.
  apply (proj1 (proj2 (index_lookup_agrees_with_listing scenario_repos "proj1" "alice"))).
  vm_compute; reflexivity.
Defined.
